(** * with-defer: the AggregateError container and the defer-execution engine

    A shallow embedding of [src/error.ts] and [src/cleanup.ts].

    JavaScript objects live in a heap and are handed around by reference;
    the two arrays that [runWithDefer] keeps for itself are modelled the way
    the code uses them: [onCleanup] is private to the invocation and only
    reachable through [defer], [errors] is an ordinary array that is handed
    to the [AggregateError] constructor.

    [runWithDefer] is given twice: as a function that awaits every call to
    its end, and as a machine that takes one turn of the event loop at a
    time, parked at the function's [await]s; the two are shown to agree.

    Caller code is taken to end: an operation or a callback that never
    settles leaves [runWithDefer] waiting, and is not modelled. *)

From stdpp Require Import gmap strings list fin_maps.
From Stdlib Require Import ZArith.

Local Open Scope string_scope.
Local Open Scope list_scope.
Local Open Scope nat_scope.

(** ** Values and the object heap *)

Definition loc := nat.

(** A JavaScript value. Objects, arrays and error instances are references
    into the heap, so that two values are the same object exactly when they
    are the same reference. *)
Inductive value : Type :=
| VUndefined
| VBoolean (b : bool)
| VNumber (n : Z)
| VString (s : string)
| VRef (l : loc).

(** The classes that matter here, with their [extends] link. [ClassObject]
    is the root, [ClassError] the host's [Error]. *)
Inductive class : Type :=
| ClassObject
| ClassError
| ClassAggregateError.

Definition extends (c : class) : option class :=
  match c with
  | ClassObject => None
  | ClassError => Some ClassObject
  | ClassAggregateError => Some ClassError   (* class AggregateError extends Error *)
  end.

Definition class_eqb (c d : class) : bool :=
  match c, d with
  | ClassObject, ClassObject
  | ClassError, ClassError
  | ClassAggregateError, ClassAggregateError => true
  | _, _ => false
  end.

(** The chain of prototypes of a class, nearest first: the class, then
    what it extends, and so on to the root. *)
Fixpoint chain_from (depth : nat) (c : class) : list class :=
  match depth with
  | O => []
  | S depth =>
      c :: match extends c with
           | Some d => chain_from depth d
           | None => []
           end
  end.

Definition prototype_chain (c : class) : list class := chain_from 3 c.

Inductive object : Type :=
| ObjArray (elems : list value)
| ObjInstance (cls : class) (props : gmap string value).

Abbreviation heap := (gmap loc object).

(** Allocation picks a reference that the heap does not use yet. *)
Definition alloc (o : object) (h : heap) : heap * loc :=
  let l := fresh (dom h) in (<[l := o]> h, l).

(** [x instanceof C]: [x] is an object whose prototype chain has [C]. *)
Definition instanceof (h : heap) (x : value) (c : class) : bool :=
  match x with
  | VRef l =>
      match h !! l with
      | Some (ObjInstance cls _) => existsb (class_eqb c) (prototype_chain cls)
      | Some (ObjArray _) => class_eqb c ClassObject
      | None => false
      end
  | _ => false
  end.

(** Own property read, [o.p]. *)
Definition get_prop (h : heap) (x : value) (p : string) : option value :=
  match x with
  | VRef l =>
      match h !! l with
      | Some (ObjInstance _ props) => props !! p
      | _ => None
      end
  | _ => None
  end.

(** The elements of the array behind a value. *)
Definition array_elems (h : heap) (x : value) : option (list value) :=
  match x with
  | VRef l =>
      match h !! l with
      | Some (ObjArray xs) => Some xs
      | _ => None
      end
  | _ => None
  end.

(** ** src/error.ts *)

Module Error.

(** The host's [Error] constructor called through [super(message)]: the
    instance is created with the class of [new.target] and gets an own
    [message] property. *)
Definition Error_super (new_target : class) (message : string)
  : class * gmap string value :=
  (new_target, {[ "message" := VString message ]}).

(** [[...errors]]: the iterable is read now and its elements are put in
    a new array. The iterables of this development are arrays, which is
    what the engine and the tests pass; an iterable whose own iterator
    throws or never ends has no counterpart here. [None] stands for an
    argument that is not iterable, which the parameter's type
    [Iterable<unknown>] excludes. *)
Definition spread (errors : loc) (h : heap) : option (heap * loc) :=
  match h !! errors with
  | Some (ObjArray xs) => Some (alloc (ObjArray xs) h)
  | _ => None
  end.

(** [new AggregateError(errors, message = '')].
    [super(message)], then the field [name = 'AggregateError'], then the
    parameter property [message], then [this.errors = [...errors]]. *)
Definition new_AggregateError (errors : loc) (message : option string)
    (h : heap) : option (heap * value) :=
  let message := default "" message in
  let '(cls, this) := Error_super ClassAggregateError message in
  let this := <[ "name" := VString "AggregateError" ]> this in
  let this := <[ "message" := VString message ]> this in
  match spread errors h with
  | Some (h1, copy) =>
      let this := <[ "errors" := VRef copy ]> this in
      let '(h2, self) := alloc (ObjInstance cls this) h1 in
      Some (h2, VRef self)
  | None => None
  end.

End Error.

(** ** src/cleanup.ts *)

(** What calling a function hands back to [await]: a plain value or a
    synchronous [throw] (a function that is not [async]), or a promise that
    was fulfilled or rejected (an [async] function). *)
Inductive completion : Type :=
| Returned (v : value)
| Thrown (e : value)
| Fulfilled (v : value)
| Rejected (e : value).

(** What [await] makes of it inside a [try]. *)
Inductive outcome : Type :=
| Normal (v : value)
| Abrupt (e : value).

Definition await (c : completion) : outcome :=
  match c with
  | Returned v | Fulfilled v => Normal v
  | Thrown e | Rejected e => Abrupt e
  end.

(** An [async] function hands its caller a promise: fulfilled by a
    [return], rejected by a [throw]. *)
Definition settle (o : outcome) : completion :=
  match o with
  | Normal v => Fulfilled v
  | Abrupt e => Rejected e
  end.

(** [xs.push(v)] and [xs.length] on the array at [a]. *)
Definition array_push (a : loc) (v : value) (h : heap) : heap :=
  match h !! a with
  | Some (ObjArray xs) => <[a := ObjArray (xs ++ [v])]> h
  | _ => h
  end.

Definition array_length (a : loc) (h : heap) : nat :=
  match h !! a with
  | Some (ObjArray xs) => length xs
  | _ => 0
  end.

Module Cleanup.

Section Engine.

(** The caller's own state, which the operation and the clean-up
    callbacks read and change. *)
Context {W : Type}.

(** The code the caller supplies, as the sequence of things it does that
    the engine can see: it changes the caller's state, it looks at it, it
    calls [defer], it waits for something of its own (a timer, a file) and
    goes on in a later turn of the event loop, and in the end it returns,
    throws, fulfils or rejects. A [FunctionWithCleanup] is such a program,
    and so is a [CleanupCallback]; both may call [defer], which is in their
    scope whenever the operation shares it. Caller code works on its own
    state; the heap holds the objects its values refer to and those the
    library allocates. *)
Inductive prog : Type :=
| Done (c : completion)
| Effect (f : W -> W) (k : prog)
| Observe (k : W -> prog)
| CallDefer (deferredFn : prog) (k : value -> prog)
| Suspend (k : prog).

(** One invocation of [runWithDefer]: the caller's state, the object
    heap, the [onCleanup] array, and (not read by the engine) the
    clean-up callbacks it has awaited so far, each with what [await]
    made of it. *)
Record state : Type := State {
  world : W;
  objects : heap;
  onCleanup : list prog;
  calls : list (prog * outcome)
}.

Definition set_world (w : W) (s : state) : state :=
  State w (objects s) (onCleanup s) (calls s).
Definition set_objects (h : heap) (s : state) : state :=
  State (world s) h (onCleanup s) (calls s).
Definition set_onCleanup (l : list prog) (s : state) : state :=
  State (world s) (objects s) l (calls s).
Definition log_call (fn : prog) (o : outcome) (s : state) : state :=
  State (world s) (objects s) (onCleanup s) (calls s ++ [(fn, o)]).

(** [const defer = (deferredFn) => { onCleanup.unshift(deferredFn); }]:
    no [return], so the call evaluates to [undefined]. *)
Definition defer (deferredFn : prog) (s : state) : state * value :=
  (set_onCleanup (deferredFn :: onCleanup s) s, VUndefined).

(** Caller code, called and awaited to its end. *)
Fixpoint exec (p : prog) (s : state) : state * completion :=
  match p with
  | Done c => (s, c)
  | Effect f k => exec k (set_world (f (world s)) s)
  | Observe k => exec (k (world s)) s
  | CallDefer deferredFn k =>
      let '(s', r) := defer deferredFn s in exec (k r) s'
  | Suspend k => exec k s
  end.

(** [try { await onCleanupFn(); } catch (err) { errors.push(err); }],
    once the call has come to the completion [c]. *)
Definition caught (errors : loc) (onCleanupFn : prog) (c : completion)
    (s : state) : state :=
  let s' :=
    match await c with
    | Normal _ => s
    | Abrupt err => set_objects (array_push errors err (objects s)) s
    end in
  log_call onCleanupFn (await c) s'.

(** [for (const onCleanupFn of onCleanup) { ... }].
    The array iterator keeps an index and reads the array afresh at
    every step, so what a callback does to [onCleanup] shows in the
    rest of the loop. [fuel] bounds the number of callbacks called. *)
Fixpoint cleanup_loop (fuel index : nat) (errors : loc) (s : state)
  : option state :=
  match onCleanup s !! index with
  | None => Some s
  | Some onCleanupFn =>
      match fuel with
      | O => None
      | S fuel =>
          let '(s1, c) := exec onCleanupFn s in
          cleanup_loop fuel (S index) errors (caught errors onCleanupFn c s1)
      end
  end.

Definition cleanup_message : string :=
  "One or more exceptions caught while executing deferred clean-up functions".

(** The end of the [finally] block and of the function:
    [if (errors.length) { throw new AggregateError(errors, ...); }], and
    otherwise the completion of [return await func(defer)]. The [async]
    function settles its promise accordingly. *)
Definition finish (errors : loc) (tried : outcome) (s : state)
  : option (state * completion) :=
  if Nat.eqb (array_length errors (objects s)) 0
  then Some (s, settle tried)
  else
    match Error.new_AggregateError errors (Some cleanup_message) (objects s) with
    | Some (h, err) => Some (set_objects h s, Rejected err)
    | None => None
    end.

(** [runWithDefer(func)], every call awaited to its end. [None] when
    [fuel] does not suffice for the clean-up loop (and when [errors] is
    not an array, which it always is). *)
Definition runWithDefer (fuel : nat) (func : prog) (w : W) (h : heap)
  : option (state * completion) :=
  let s0 := State w h [] [] in
  let '(s1, c) := exec func s0 in
  let tried := await c in
  let '(h1, errors) := alloc (ObjArray []) (objects s1) in
  match cleanup_loop fuel 0 errors (set_objects h1 s1) with
  | None => None
  | Some s2 => finish errors tried s2
  end.

(** *** The same function, one turn of the event loop at a time *)

(** Who is running: the operation, or the callback that the loop took
    from [onCleanup] at [index]. *)
Inductive role : Type :=
| Operation
| Action (index : nat).

Definition role_eqb (r r' : role) : bool :=
  match r, r' with
  | Operation, Operation => true
  | Action i, Action j => Nat.eqb i j
  | _, _ => false
  end.

(** Code that was called: parked at a suspension with [k] left to run,
    or at its end, its promise settled. *)
Inductive task : Type :=
| Parked (k : prog)
| Completed (c : completion).

(** What an observer of the invocation sees (not read by the engine). *)
Inductive event : Type :=
| Started (r : role)
| Settled (r : role) (o : outcome)
| Finished (c : completion).

(** Caller code runs up to its next suspension or to its end. *)
Fixpoint advance (p : prog) (s : state) : state * task :=
  match p with
  | Done c => (s, Completed c)
  | Effect f k => advance k (set_world (f (world s)) s)
  | Observe k => advance (k (world s)) s
  | CallDefer deferredFn k =>
      let '(s', r) := defer deferredFn s in advance (k r) s'
  | Suspend k => (s, Parked k)
  end.

Definition settled_events (r : role) (t : task) : list event :=
  match t with
  | Parked _ => []
  | Completed c => [Settled r (await c)]
  end.

(** The [await] at which the [async] function is parked, with its local
    variables: [await func(defer)], [await onCleanupFn()], or nowhere once
    its promise is settled. *)
Inductive point : Type :=
| AwaitFunc
| AwaitCleanup (index : nat) (onCleanupFn : prog) (errors : loc) (tried : outcome)
| Over (c : completion).

Record machine : Type := Machine {
  store : state;
  pending : list (role * task);
  parked_at : point;
  trace : list event
}.

(** [runWithDefer(func)] up to its first [await]: [func(defer)] is called
    and runs to its first suspension. *)
Definition start (func : prog) (w : W) (h : heap) : machine :=
  let '(s, t) := advance func (State w h [] []) in
  Machine s [(Operation, t)] AwaitFunc
    (Started Operation :: settled_events Operation t).

(** The loop takes the element at [index] and calls it, or is through
    with the array and the function ends. *)
Definition next_callback (index : nat) (errors : loc) (tried : outcome)
    (s : state) (pend : list (role * task)) (tr : list event)
  : option machine :=
  match onCleanup s !! index with
  | Some onCleanupFn =>
      let '(s', t) := advance onCleanupFn s in
      Some (Machine s' (pend ++ [(Action index, t)])
              (AwaitCleanup index onCleanupFn errors tried)
              (tr ++ Started (Action index) :: settled_events (Action index) t))
  | None =>
      match finish errors tried s with
      | Some (s', c) => Some (Machine s' pend (Over c) (tr ++ [Finished c]))
      | None => None
      end
  end.

(** The settled promise of [r], taken out of the pending tasks. *)
Fixpoint take (r : role) (pend : list (role * task))
  : option (completion * list (role * task)) :=
  match pend with
  | [] => None
  | (r', t) :: rest =>
      if role_eqb r r'
      then match t with
           | Completed c => Some (c, rest)
           | Parked _ => None
           end
      else match take r rest with
           | Some (c, rest') => Some (c, (r', t) :: rest')
           | None => None
           end
  end.

(** A turn of the [async] function: the promise it awaits has settled,
    and it runs on to its next [await] or to its end. *)
Definition resume_engine (m : machine) : option machine :=
  match parked_at m with
  | AwaitFunc =>
      match take Operation (pending m) with
      | Some (c, pend) =>
          let '(h1, errors) := alloc (ObjArray []) (objects (store m)) in
          next_callback 0 errors (await c) (set_objects h1 (store m)) pend (trace m)
      | None => None
      end
  | AwaitCleanup index onCleanupFn errors tried =>
      match take (Action index) (pending m) with
      | Some (c, pend) =>
          next_callback (S index) errors tried
            (caught errors onCleanupFn c (store m)) pend (trace m)
      | None => None
      end
  | Over _ => None
  end.

(** A turn of the pending task number [j]: what it waited for has
    come, and it runs on to its next suspension or to its end. *)
Definition resume_task (j : nat) (m : machine) : option machine :=
  match pending m !! j with
  | Some (r, Parked k) =>
      let '(s', t) := advance k (store m) in
      Some (Machine s' (<[j := (r, t)]> (pending m)) (parked_at m)
              (trace m ++ settled_events r t))
  | _ => None
  end.

(** One turn of the event loop, whichever the loop picks. *)
Definition turn (m m' : machine) : Prop :=
  resume_engine m = Some m' ∨ ∃ j, resume_task j m = Some m'.

(** The turns taken in the order of [schedule]: [None] for the engine,
    [Some j] for the pending task [j]. *)
Fixpoint run (schedule : list (option nat)) (m : machine) : option machine :=
  match schedule with
  | [] => Some m
  | who :: rest =>
      match
        match who with
        | None => resume_engine m
        | Some j => resume_task j m
        end
      with
      | Some m' => run rest m'
      | None => None
      end
  end.

(** What an observer has seen so far: nothing, the operation running,
    [n] callbacks settled and none running, callback [n] running, or the
    promise of [runWithDefer] settled. *)
Inductive activity : Type :=
| NotStarted
| InOperation
| Between (n : nat)
| InAction (n : nat)
| Ended (n : nat).

(** The observations that are in order: a callback starts only when the
    operation and the callbacks before it have settled, and the promise
    of [runWithDefer] settles only when nothing is running. *)
Definition observe (a : activity) (e : event) : option activity :=
  match a, e with
  | NotStarted, Started Operation => Some InOperation
  | InOperation, Settled Operation _ => Some (Between 0)
  | Between n, Started (Action i) => if Nat.eqb i n then Some (InAction n) else None
  | InAction n, Settled (Action i) _ => if Nat.eqb i n then Some (Between (S n)) else None
  | Between n, Finished _ => Some (Ended n)
  | _, _ => None
  end.

Fixpoint observe_all (a : activity) (tr : list event) : option activity :=
  match tr with
  | [] => Some a
  | e :: tr =>
      match observe a e with
      | Some a' => observe_all a' tr
      | None => None
      end
  end.

Definition sequential (tr : list event) : bool :=
  match observe_all NotStarted tr with
  | Some _ => true
  | None => false
  end.

(** The number of callbacks an observer has seen settle. *)
Definition settled_count (a : activity) : nat :=
  match a with
  | NotStarted | InOperation => 0
  | Between n | InAction n | Ended n => n
  end.

(** What an observer has seen of a task that was started as [r]. *)
Definition seen (r : role) (t : task) : activity :=
  match r, t with
  | Operation, Parked _ => InOperation
  | Operation, Completed _ => Between 0
  | Action i, Parked _ => InAction i
  | Action i, Completed _ => Between (S i)
  end.

(** The engine waits for one task, the one it called last, and has
    logged the callbacks before it; once over, nothing is pending and
    the loop went past the end of [onCleanup]. *)
Definition in_order (m : machine) : Prop :=
  match parked_at m with
  | AwaitFunc =>
      ∃ t, pending m = [(Operation, t)] ∧
           observe_all NotStarted (trace m) = Some (seen Operation t) ∧
           calls (store m) = []
  | AwaitCleanup i _ _ _ =>
      ∃ t, pending m = [(Action i, t)] ∧
           observe_all NotStarted (trace m) = Some (seen (Action i) t) ∧
           length (calls (store m)) = i
  | Over c =>
      pending m = [] ∧
      observe_all NotStarted (trace m) = Some (Ended (length (calls (store m)))) ∧
      length (onCleanup (store m)) ≤ length (calls (store m)) ∧
      ∃ tr, trace m = tr ++ [Finished c]
  end.

(** A pending task awaited to its end. *)
Definition awaited (t : task) (s : state) : state * completion :=
  match t with
  | Parked k => exec k s
  | Completed c => (s, c)
  end.

(** What is left of the invocation, every call awaited to its end. *)
Definition remainder (fuel : nat) (m : machine) : option (state * completion) :=
  match parked_at m, pending m with
  | AwaitFunc, [(_, t)] =>
      let '(s1, c) := awaited t (store m) in
      let '(h1, errors) := alloc (ObjArray []) (objects s1) in
      match cleanup_loop fuel 0 errors (set_objects h1 s1) with
      | None => None
      | Some s2 => finish errors (await c) s2
      end
  | AwaitCleanup index onCleanupFn errors tried, [(_, t)] =>
      let '(s1, c) := awaited t (store m) in
      match cleanup_loop fuel (S index) errors (caught errors onCleanupFn c s1) with
      | None => None
      | Some s2 => finish errors tried s2
      end
  | Over c, _ => Some (store m, c)
  | _, _ => None
  end.

(** The tasks that are still running. *)
Definition running (pend : list (role * task)) : list role :=
  omap (fun rt => match rt.2 with Parked _ => Some rt.1 | Completed _ => None end)
    pend.

(** *** What the operation and the callbacks do, read off the program *)

(** The callbacks the program hands to [defer], in the order of the
    calls, when it starts in [w]. *)
Fixpoint registered (p : prog) (w : W) : list prog :=
  match p with
  | Done _ => []
  | Effect f k => registered k (f w)
  | Observe k => registered (k w) w
  | CallDefer deferredFn k => deferredFn :: registered (k VUndefined) w
  | Suspend k => registered k w
  end.

(** What the program does to the caller's state and how it ends. *)
Fixpoint effect (p : prog) (w : W) : W * completion :=
  match p with
  | Done c => (w, c)
  | Effect f k => effect k (f w)
  | Observe k => effect (k w) w
  | CallDefer _ k => effect (k VUndefined) w
  | Suspend k => effect k w
  end.

(** A program that never calls [defer]. *)
Fixpoint defer_free (p : prog) : Prop :=
  match p with
  | Done _ => True
  | Effect _ k => defer_free k
  | Observe k => forall w, defer_free (k w)
  | CallDefer _ _ => False
  | Suspend k => defer_free k
  end.

(** Registration happens while the operation runs: no registered
    callback calls [defer] itself. *)
Definition in_contract (func : prog) (w : W) : Prop :=
  Forall defer_free (registered func w).

(** Running the actions one after the other, each from the state the
    one before left, whatever their outcomes: the state at the end
    and each action with its outcome. *)
Fixpoint run_each (actions : list prog) (w : W) : W * list (prog * outcome) :=
  match actions with
  | [] => (w, [])
  | a :: rest =>
      let '(w1, c) := effect a w in
      let '(w2, log) := run_each rest w1 in
      (w2, (a, await c) :: log)
  end.

Definition failure (o : outcome) : option value :=
  match o with
  | Normal _ => None
  | Abrupt e => Some e
  end.

Definition succeeded (o : outcome) : Prop :=
  match o with
  | Normal _ => True
  | Abrupt _ => False
  end.

(** The failures of a call history, in the order of the calls. *)
Definition failures (log : list (prog * outcome)) : list value :=
  omap (fun call => failure call.2) log.

(** Clean-up as the operation leaves it: the registered actions, last
    registered first, run from the state the operation ended in. *)
Definition cleanup_log (func : prog) (w : W) : list (prog * outcome) :=
  (run_each (reverse (registered func w)) (effect func w).1).2.

Definition cleanup_world (func : prog) (w : W) : W :=
  (run_each (reverse (registered func w)) (effect func w).1).1.

(** *** Sync and async code *)

(** What an [async] function makes of a body that ends in [c]: a promise,
    fulfilled by a [return] (or by the fulfilled promise it returns),
    rejected by a [throw]. *)
Definition promised (c : completion) : completion := settle (await c).

(** The same code with every function in it declared [async]: the
    program, and the callbacks it hands to [defer]. *)
Fixpoint async (p : prog) : prog :=
  match p with
  | Done c => Done (promised c)
  | Effect f k => Effect f (async k)
  | Observe k => Observe (fun w => async (k w))
  | CallDefer deferredFn k => CallDefer (async deferredFn) (fun r => async (k r))
  | Suspend k => Suspend (async k)
  end.

(** Two programs that do the same and end the same for [await], be it by
    [return] and [throw] or through a promise; likewise the callbacks
    they hand to [defer]. *)
Inductive alike : prog -> prog -> Prop :=
| alike_Done c c' :
    await c = await c' -> alike (Done c) (Done c')
| alike_Effect f k k' :
    alike k k' -> alike (Effect f k) (Effect f k')
| alike_Observe k k' :
    (forall w, alike (k w) (k' w)) -> alike (Observe k) (Observe k')
| alike_CallDefer fn fn' k k' :
    alike fn fn' -> (forall r, alike (k r) (k' r)) ->
    alike (CallDefer fn k) (CallDefer fn' k')
| alike_Suspend k k' :
    alike k k' -> alike (Suspend k) (Suspend k').

(** Two invocations that differ at most in that: the same caller state
    and heap, callbacks alike at every place of [onCleanup], and calls of
    like callbacks with the same outcomes. *)
Definition states_alike (s s' : state) : Prop :=
  world s = world s' ∧
  objects s = objects s' ∧
  Forall2 alike (onCleanup s) (onCleanup s') ∧
  Forall2 (fun call call' => alike call.1 call'.1 ∧ call.2 = call'.2)
    (calls s) (calls s').

Definition results_alike (r r' : option (state * completion)) : Prop :=
  match r, r' with
  | Some (s, c), Some (s', c') => states_alike s s' ∧ c = c'
  | None, None => True
  | _, _ => False
  end.

(** While the engine is in the loop, [errors] is an array of the heap. *)
Definition errors_ready (m : machine) : Prop :=
  match parked_at m with
  | AwaitCleanup _ _ errors _ =>
      ∃ es, objects (store m) !! errors = Some (ObjArray es)
  | _ => True
  end.

End Engine.

Arguments prog : clear implicits.
Arguments state : clear implicits.
Arguments task : clear implicits.
Arguments point : clear implicits.
Arguments machine : clear implicits.

End Cleanup.

(** [x] is, in [h], an [AggregateError] carrying [errs] and [msg]. *)
Definition is_AggregateError (h : heap) (x : value) (errs : list value)
    (msg : string) : Prop :=
  instanceof h x ClassAggregateError = true ∧
  get_prop h x "name" = Some (VString "AggregateError") ∧
  get_prop h x "message" = Some (VString msg) ∧
  (get_prop h x "errors" ≫= array_elems h) = Some errs.

(** Every object of [h] is the same in [h']. *)
Definition preserves (h h' : heap) : Prop :=
  ∀ l, l ∈ dom h → h' !! l = h !! l.


(** ** src/cleanup.test.ts and src/error.test.ts: the inputs of the tests *)

Module Tests.

Import Cleanup.

(** The caller's state of the tests is the array [got]. *)
Abbreviation got := (list Z).

(** [() => got.push(n)]: returns the new length. *)
Definition got_push (n : Z) : prog got :=
  Effect (fun got => got ++ [n])
    (Observe (fun got => Done (Returned (VNumber (Z.of_nat (length got)))))).

(** [() => { throw e; }] *)
Definition throws (e : value) : prog got := Done (Thrown e).

(** [(defer) => { defer(a); defer(b); defer(c); ... }] *)
Definition defer3 (a b c : prog got) (rest : prog got) : prog got :=
  CallDefer a (fun _ => CallDefer b (fun _ => CallDefer c (fun _ => rest))).

(** 'will call deferred functions in LIFO order ...' for a handler that
    is sync or async and that throws or does not. *)
Definition lifo (ending : completion) : prog got :=
  defer3 (got_push 1) (got_push 2) (got_push 3) (Done ending).

(** 'will call deferred functions in LIFO order even if one throws' *)
Definition lifo_one_throws : prog got :=
  defer3 (got_push 1) (got_push 2) (throws (VString "yoink"))
    (CallDefer (got_push 3) (fun _ => Done (Fulfilled VUndefined))).

(** '... an AggregateError whose errors property collects errors thrown by
    deferred functions', for a handler that ends with [ending]. *)
Definition all_throw (ending : completion) : prog got :=
  defer3 (throws (VNumber 1)) (throws (VNumber 2)) (throws (VNumber 3))
    (Done ending).

(** [const want = { result: true }] and [const want = new Error()], the
    objects that the handlers without [defer] return or throw. *)
Definition want : loc := 0.
Definition want_result : heap :=
  {[ want := ObjInstance ClassObject {[ "result" := VBoolean true ]} ]}.
Definition want_error : heap :=
  {[ want := ObjInstance ClassError {[ "message" := VString "" ]} ]}.

(** The handlers of 'calls to withDefer without using defer'. *)
Definition handler (ending : completion) : prog got := Done ending.

(** Callbacks that take their time, as with an artificial delay: the
    last registered one waits twice before it pushes, the one before
    waits and then throws; the handler itself waits before it ends. *)
Definition delayed : prog got :=
  defer3 (got_push 1)
    (Suspend (throws (VString "late")))
    (Suspend (Suspend (got_push 3)))
    (Suspend (Done (Fulfilled VUndefined))).

(** The turns of the invocation of [delayed]: the handler ends; the
    engine calls the first callback, which takes two more turns; the
    engine calls the second, which takes one more; the engine calls the
    third, which ends at once; the engine ends. *)
Definition delayed_turns : list (option nat) :=
  [Some 0; None; Some 0; Some 0; None; Some 0; None; None].


(** A callback that hands itself a new callback each time it is called:
    [defer(function again() { defer(() => got.push(0)); })]. *)
Definition again : prog got :=
  CallDefer (got_push 0) (fun _ => Done (Returned VUndefined)).
Definition defers_again : prog got :=
  CallDefer again (fun _ => Done (Returned VUndefined)).

(** A callback that calls [defer] the first time it is called, when
    [got] is still empty, and not after:
    [defer(() => got.length ? got.push(2) : (defer(() => got.push(9)), got.push(1)))]. *)
Definition defers_once : prog got :=
  Observe (fun got =>
    match got with
    | [] => CallDefer (got_push 9) (fun _ => got_push 1)
    | _ => got_push 2
    end).
Definition registers_defers_once : prog got :=
  CallDefer defers_once (fun _ => Done (Returned VUndefined)).

(** [got_push 4] is registered before [again] and so stands behind it in
    [onCleanup]; [got_push 5] is registered after it and stands before. *)
Definition again_in_the_middle : prog got :=
  defer3 (got_push 4) again (got_push 5) (Done (Returned VUndefined)).

(** What the tests look at: the errors of the [AggregateError] that
    rejected the promise, and the array [got] at the end. *)
Definition rejected_errors (r : option (state got * completion))
  : option (list value) :=
  match r with
  | Some (s, Rejected err) =>
      get_prop (objects s) err "errors" ≫= array_elems (objects s)
  | _ => None
  end.

Definition got_after (r : option (state got * completion)) : option got :=
  match r with
  | Some (s, _) => Some (world s)
  | None => None
  end.

Definition settled (r : option (state got * completion)) : option completion :=
  match r with
  | Some (_, c) => Some c
  | None => None
  end.

(** [new AggregateError([])] and [new AggregateError([1, 2, 3])]: the
    argument arrays. *)
Definition source : loc := 0.
Definition three_errors : heap :=
  {[ source := ObjArray [VNumber 1; VNumber 2; VNumber 3] ]}.

End Tests.


(** * Facts *)

(** ** The heap *)

Lemma preserves_refl (h : heap) : preserves h h.
Proof. by intros l _. Qed.

Lemma preserves_insert_fresh (h h' : heap) (l : loc) (o : object) :
  l ∉ dom h → preserves h h' → preserves h (<[l := o]> h').
Proof.
  intros Hl Hp k Hk. rewrite lookup_insert_ne; [by apply Hp|].
  by intros <-.
Qed.

(** ** src/error.ts *)

(** The constructor, step by step, on an array argument. *)
Lemma new_AggregateError_array (h : heap) (src : loc) (xs : list value)
    (message : option string) :
  h !! src = Some (ObjArray xs) →
  let msg := default "" message in
  let copy := fresh (dom h) in
  let h1 := <[copy := ObjArray xs]> h in
  let self := fresh (dom h1) in
  let this : gmap string value :=
    <[ "errors" := VRef copy ]>
      (<[ "message" := VString msg ]>
         (<[ "name" := VString "AggregateError" ]>
            {[ "message" := VString msg ]})) in
  Error.new_AggregateError src message h
  = Some (<[self := ObjInstance ClassAggregateError this]> h1, VRef self).
Proof.
  intros Hsrc. unfold Error.new_AggregateError, Error.spread. cbn.
  by rewrite Hsrc.
Qed.

Lemma new_AggregateError_is (h : heap) (src : loc) (xs : list value)
    (message : option string) :
  h !! src = Some (ObjArray xs) →
  ∃ h' self copy,
    Error.new_AggregateError src message h = Some (h', VRef self) ∧
    (self ∉ dom h) ∧ (copy ∉ dom h) ∧ (self ≠ copy) ∧
    preserves h h' ∧
    get_prop h' (VRef self) "errors" = Some (VRef copy) ∧
    h' !! copy = Some (ObjArray xs) ∧
    is_AggregateError h' (VRef self) xs (default "" message).
Proof.
  intros Hsrc.
  pose proof (new_AggregateError_array h src xs message Hsrc) as Hnew.
  cbn zeta in Hnew.
  set (copy := fresh (dom h)) in *.
  set (h1 := <[copy := ObjArray xs]> h) in *.
  set (self := fresh (dom h1)) in *.
  assert (Hcopy : copy ∉ dom h) by apply is_fresh.
  assert (Hself : self ∉ dom h1) by apply is_fresh.
  assert (Hself' : (self ∉ dom h) ∧ (self ≠ copy)).
  { unfold h1 in Hself. rewrite dom_insert_L in Hself. set_solver. }
  destruct Hself' as [Hself1 Hself2].
  eexists _, self, copy. split; [exact Hnew|].
  repeat split; try done.
  - apply preserves_insert_fresh; [done|].
    apply preserves_insert_fresh; [done|]. apply preserves_refl.
  - unfold get_prop. rewrite lookup_insert_eq. by simplify_map_eq.
  - rewrite lookup_insert_ne; [|done]. apply lookup_insert_eq.
  - unfold instanceof. by rewrite lookup_insert_eq.
  - unfold get_prop. rewrite lookup_insert_eq. by simplify_map_eq.
  - unfold get_prop. rewrite lookup_insert_eq. by simplify_map_eq.
  - unfold get_prop. rewrite lookup_insert_eq.
    rewrite lookup_insert_eq. cbn. 
    rewrite lookup_insert_ne; [|done]. unfold h1. by rewrite lookup_insert_eq.
Qed.



(** ** src/cleanup.ts *)

Import Cleanup.

Section EngineFacts.

Context {W : Type}.

Implicit Types (p func : prog W) (s : state W) (w : W) (h : heap).

(** Caller code leaves the heap and the call history alone, puts what it
    registers in front of [onCleanup], newest first, and otherwise does
    what [effect] says. *)
Lemma exec_spec p s :
  exec p s
  = (State (effect p (world s)).1 (objects s)
       (reverse (registered p (world s)) ++ onCleanup s) (calls s),
     (effect p (world s)).2).
Proof.
  revert s. induction p as [c|f k IH|k IH|fn _ k IH|k IH]; intros s;
    cbn [exec registered effect defer].
  - by destruct s.
  - by rewrite IH.
  - by rewrite IH.
  - rewrite IH. unfold set_onCleanup. cbn [world objects onCleanup calls].
    by rewrite reverse_cons, <- app_assoc.
  - by rewrite IH.
Qed.

Lemma defer_free_registered p w : defer_free p → registered p w = [].
Proof.
  revert w. induction p as [c|f k IH|k IH|fn _ k IH|k IH]; intros w Hp;
    cbn in *; try done; eauto.
Qed.

Lemma exec_defer_free p s :
  defer_free p →
  exec p s = (set_world (effect p (world s)).1 s, (effect p (world s)).2).
Proof.
  intros Hp. rewrite exec_spec. by rewrite (defer_free_registered _ _ Hp).
Qed.

(** The loop over an [onCleanup] that no callback touches: from index [i]
    on it calls what is left of the array, in order, and pushes every
    failure. *)
Lemma cleanup_loop_in_contract (rest : list (prog W)) :
  ∀ fuel i errors s es,
    drop i (onCleanup s) = rest →
    Forall defer_free rest →
    length rest ≤ fuel →
    objects s !! errors = Some (ObjArray es) →
    cleanup_loop fuel i errors s
    = Some (State (run_each rest (world s)).1
              (<[errors := ObjArray (es ++ failures (run_each rest (world s)).2)]>
                 (objects s))
              (onCleanup s)
              (calls s ++ (run_each rest (world s)).2)).
Proof.
  induction rest as [|a rest IH]; intros fuel i errors s es Hdrop Hfree Hfuel Herr.
  - assert (onCleanup s !! i = None) as Hnone.
    { apply lookup_ge_None_2. apply drop_nil_inv in Hdrop. lia. }
    assert (cleanup_loop fuel i errors s = Some s) as ->.
    { destruct fuel; cbn; by rewrite Hnone. }
    destruct s as [w h l cs]; cbn in *. f_equal.
    rewrite !app_nil_r. by rewrite insert_id.
  - assert (onCleanup s !! i = Some a) as Hsome.
    { rewrite <- (Nat.add_0_r i), <- lookup_drop, Hdrop. done. }
    assert (drop (S i) (onCleanup s) = rest) as Hrest.
    { apply drop_S in Hsome. rewrite Hdrop in Hsome. congruence. }
    apply Forall_cons in Hfree as [Ha Hfree].
    destruct fuel as [|fuel]; [cbn in Hfuel; lia|]. cbn in Hfuel.
    cbn [cleanup_loop]. rewrite Hsome. rewrite (exec_defer_free _ _ Ha).
    cbn [run_each].
    destruct (effect a (world s)) as [w1 c] eqn:Ha1. cbn [fst snd].
    destruct (run_each rest w1) as [w2 log] eqn:Hrun. cbn [fst snd].
    destruct s as [w h l cs]. unfold caught. cbn in *.
    destruct (await c) as [v|e] eqn:Hc.
    + erewrite IH; cbn; eauto; [|lia].
      rewrite Hrun. cbn. by rewrite <- app_assoc.
    + unfold array_push. rewrite Herr.
      erewrite IH; cbn; eauto; [|lia|by rewrite lookup_insert_eq].
      rewrite Hrun. cbn. rewrite insert_insert_eq.
      by rewrite <- !app_assoc.
Qed.

(** The whole invocation, for an operation whose callbacks leave [defer]
    alone: the [finally] block calls the registered callbacks, last
    registered first, and decides on the failures it collected. *)
Lemma runWithDefer_in_contract func w h fuel :
  in_contract func w →
  length (registered func w) ≤ fuel →
  let errors := fresh (dom h) in
  let log := cleanup_log func w in
  let s2 := State (cleanup_world func w)
              (<[errors := ObjArray (failures log)]> h)
              (reverse (registered func w)) log in
  runWithDefer fuel func w h
  = match failures log with
    | [] => Some (s2, settle (await (effect func w).2))
    | _ :: _ =>
        match Error.new_AggregateError errors (Some cleanup_message) (objects s2) with
        | Some (h2, err) => Some (set_objects h2 s2, Rejected err)
        | None => None
        end
    end.
Proof.
  intros Hfree Hfuel. cbn zeta. unfold runWithDefer.
  rewrite exec_spec. cbn [world objects onCleanup calls alloc].
  rewrite app_nil_r. unfold set_objects. cbn [world objects onCleanup calls].
  erewrite (cleanup_loop_in_contract (reverse (registered func w)) fuel 0 _ _ []);
    cbn [world objects onCleanup calls]; first last.
  - apply lookup_insert_eq.
  - by rewrite length_reverse.
  - by apply Forall_reverse.
  - done.
  - rewrite insert_insert_eq. unfold finish, array_length.
    cbn [objects]. rewrite lookup_insert_eq. cbn [app].
    unfold cleanup_log, cleanup_world.
    by destruct (failures _).
Qed.

(** No clean-up failure: the promise settles the way the operation did,
    after every callback was called, and no object of the caller's heap
    was touched. *)
Lemma runWithDefer_clean func w h fuel :
  in_contract func w →
  length (registered func w) ≤ fuel →
  failures (cleanup_log func w) = [] →
  ∃ s, runWithDefer fuel func w h = Some (s, settle (await (effect func w).2)) ∧
       world s = cleanup_world func w ∧
       onCleanup s = reverse (registered func w) ∧
       calls s = cleanup_log func w ∧
       preserves h (objects s) ∧
       array_elems (objects s) (VRef (fresh (dom h))) = Some [].
Proof.
  intros Hfree Hfuel Hnone.
  rewrite (runWithDefer_in_contract _ _ _ _ Hfree Hfuel). cbn zeta.
  rewrite Hnone. eexists. split; [done|]. cbn [world objects onCleanup calls].
  repeat split.
  - apply preserves_insert_fresh; [apply is_fresh|apply preserves_refl].
  - unfold array_elems. by rewrite lookup_insert_eq.
Qed.

(** Some clean-up failure: the promise is rejected with a new
    [AggregateError] over the failures, again after every callback was
    called. *)
Lemma runWithDefer_failed func w h fuel :
  in_contract func w →
  length (registered func w) ≤ fuel →
  failures (cleanup_log func w) ≠ [] →
  ∃ s self,
    runWithDefer fuel func w h = Some (s, Rejected (VRef self)) ∧
    world s = cleanup_world func w ∧
    onCleanup s = reverse (registered func w) ∧
    calls s = cleanup_log func w ∧
    preserves h (objects s) ∧
    (self ∉ dom h) ∧
    is_AggregateError (objects s) (VRef self) (failures (cleanup_log func w))
      cleanup_message ∧
    array_elems (objects s) (VRef (fresh (dom h)))
    = Some (failures (cleanup_log func w)).
Proof.
  intros Hfree Hfuel Hsome.
  rewrite (runWithDefer_in_contract _ _ _ _ Hfree Hfuel). cbn zeta.
  destruct (failures (cleanup_log func w)) as [|e es] eqn:Hf; [done|].
  set (errors := fresh (dom h)). cbn [objects].
  set (h1 := <[errors := ObjArray (e :: es)]> h).
  destruct (new_AggregateError_is h1 errors (e :: es) (Some cleanup_message))
    as (h2 & self & copy & -> & Hself & _ & _ & Hpres & _ & _ & Hagg).
  { apply lookup_insert_eq. }
  assert (Hsub : dom h ⊆ dom h1).
  { unfold h1. rewrite dom_insert_L. set_solver. }
  exists (set_objects h2 (State (cleanup_world func w) h1
                            (reverse (registered func w))
                            (cleanup_log func w))), self.
  cbn. repeat split; try done.
  - intros l Hl. rewrite Hpres; [|set_solver].
    unfold h1. apply lookup_insert_ne. intros <-.
    by apply (is_fresh (dom h)).
  - set_solver.
  - apply Hagg.
  - apply Hagg.
  - apply Hagg.
  - apply Hagg.
  - unfold array_elems. rewrite Hpres.
    + unfold h1. by rewrite lookup_insert_eq.
    + unfold h1. rewrite dom_insert_L. set_solver.
Qed.

(** Either way the invocation settles, given fuel for one call per
    registered callback. *)
Lemma runWithDefer_settles func w h fuel :
  in_contract func w →
  length (registered func w) ≤ fuel →
  ∃ s out,
    runWithDefer fuel func w h = Some (s, out) ∧
    world s = cleanup_world func w ∧
    onCleanup s = reverse (registered func w) ∧
    calls s = cleanup_log func w ∧
    preserves h (objects s) ∧
    array_elems (objects s) (VRef (fresh (dom h)))
    = Some (failures (cleanup_log func w)).
Proof.
  intros Hfree Hfuel.
  destruct (failures (cleanup_log func w)) as [|e es] eqn:Hf.
  - destruct (runWithDefer_clean func w h fuel)
      as (s & ? & ? & ? & ? & ? & ?); eauto 10.
  - destruct (runWithDefer_failed func w h fuel)
      as (s & self & ? & ? & ? & ? & ? & ? & ? & Harr); [done|done|by rewrite Hf|].
    rewrite Hf in Harr. eauto 10.
Qed.

(** *** Any invocation that settles *)

(** Whatever the callbacks do, [defer] included, a loop that ends has
    pushed the failures of the calls it made, in their order. *)
Lemma cleanup_loop_sound fuel :
  ∀ i errors s s' es,
    cleanup_loop fuel i errors s = Some s' →
    objects s !! errors = Some (ObjArray es) →
    ∃ log,
      calls s' = calls s ++ log ∧
      objects s' = <[errors := ObjArray (es ++ failures log)]> (objects s) ∧
      length (onCleanup s') ≤ i + length log.
Proof.
  induction fuel as [|fuel IH]; intros i errors s s' es; cbn [cleanup_loop];
    destruct (onCleanup s !! i) as [fn|] eqn:Hfn; try done.
  - intros [= <-] Herr. exists []. cbn. rewrite !app_nil_r, insert_id by done.
    apply lookup_ge_None_1 in Hfn. split_and!; [done|done|lia].
  - rewrite exec_spec. intros Hloop Herr.
    set (c := (effect fn (world s)).2) in *.
    unfold caught in Hloop. cbn [objects world onCleanup calls] in Hloop.
    destruct (await c) as [v|e] eqn:Hc.
    + apply (IH _ _ _ _ es) in Hloop as (log & Hcalls & Hobjs & Hlen); [|done].
      cbn in Hcalls, Hobjs. exists ((fn, Normal v) :: log).
      rewrite Hcalls, Hobjs, <- app_assoc. cbn. split_and!; [done|done|lia].
    + apply (IH _ _ _ _ (es ++ [e])) in Hloop as (log & Hcalls & Hobjs & Hlen).
      * cbn in Hcalls, Hobjs. exists ((fn, Abrupt e) :: log).
        rewrite Hcalls, Hobjs, <- !app_assoc. cbn. split_and!; [done| |lia].
        unfold array_push. rewrite Herr. by rewrite insert_insert_eq.
      * cbn. unfold array_push. rewrite Herr. apply lookup_insert_eq.
  - intros [= <-] Herr. exists []. cbn. rewrite !app_nil_r, insert_id by done.
    apply lookup_ge_None_1 in Hfn. split_and!; [done|done|lia].
Qed.

(** An invocation that settles, in or out of contract: the loop went to
    the end of [onCleanup] and [errors] holds the failures of its calls;
    with no failure the promise settles the way the operation did, with
    one it is rejected with a new [AggregateError] over the failures. *)
Lemma runWithDefer_sound func w h fuel s (out : completion) :
  runWithDefer fuel func w h = Some (s, out) →
  preserves h (objects s) ∧
  length (onCleanup s) ≤ length (calls s) ∧
  array_elems (objects s) (VRef (fresh (dom h))) = Some (failures (calls s)) ∧
  (failures (calls s) = [] → out = settle (await (effect func w).2)) ∧
  (failures (calls s) ≠ [] →
   ∃ self, out = Rejected (VRef self) ∧
           (self ∉ dom h) ∧
           is_AggregateError (objects s) (VRef self) (failures (calls s))
             cleanup_message).
Proof.
  unfold runWithDefer. rewrite exec_spec. cbn [world objects onCleanup calls alloc].
  set (errors := fresh (dom h)).
  destruct (cleanup_loop _ _ _ _) as [s2|] eqn:Hloop; [|done].
  apply (cleanup_loop_sound _ _ _ _ _ []) in Hloop as (log & Hcalls & Hobjs & Hlen);
    [|apply lookup_insert_eq].
  cbn in Hcalls, Hobjs, Hlen. rewrite insert_insert_eq in Hobjs.
  unfold finish, array_length. rewrite Hobjs, lookup_insert_eq.
  assert (Hfresh : preserves h (<[errors := ObjArray (failures log)]> h)).
  { apply preserves_insert_fresh; [apply is_fresh|apply preserves_refl]. }
  destruct (failures log) as [|e es] eqn:Hf; cbn [length Nat.eqb].
  - intros [= <- <-]. rewrite Hcalls, Hf, Hobjs. split_and!; try done.
    unfold array_elems. by rewrite lookup_insert_eq.
  - set (h1 := <[errors := ObjArray (e :: es)]> h) in *.
    destruct (new_AggregateError_is h1 errors (e :: es) (Some cleanup_message))
      as (h2 & self & copy & -> & Hself & _ & _ & Hpres & _ & _ & Hagg).
    { apply lookup_insert_eq. }
    assert (Hsub : dom h ⊆ dom h1).
    { unfold h1. rewrite dom_insert_L. set_solver. }
    assert (Herrors : errors ∈ dom h1).
    { unfold h1. rewrite dom_insert_L. set_solver. }
    intros [= <- <-]. cbn [objects calls onCleanup set_objects]. rewrite Hcalls, Hf.
    split_and!.
    + intros l Hl. rewrite Hpres; [by apply Hfresh|by apply Hsub].
    + done.
    + unfold array_elems. rewrite Hpres by done. unfold h1.
      by rewrite lookup_insert_eq.
    + done.
    + intros _. exists self. split_and!; [done| |done].
      intros Hin. by apply Hself, Hsub.
Qed.

(** The call history of [run_each] names the actions it was given. *)
Lemma run_each_actions (actions : list (prog W)) w :
  (run_each actions w).2.*1 = actions.
Proof.
  revert w. induction actions as [|a rest IH]; intros w; [done|].
  cbn [run_each]. destruct (effect a w) as [w1 c].
  specialize (IH w1). destruct (run_each rest w1) as [w2 log].
  cbn in *. by rewrite IH.
Qed.

Lemma cleanup_log_actions func w :
  (cleanup_log func w).*1 = reverse (registered func w).
Proof. apply run_each_actions. Qed.

Lemma failures_nil (log : list (prog W * outcome)) :
  Forall (λ call, succeeded call.2) log ↔ failures log = [].
Proof.
  induction log as [|[a [v|e]] log IH]; cbn.
  - done.
  - rewrite Forall_cons. cbn. tauto.
  - split; [|done]. intros Hall. by apply Forall_cons in Hall as [[] _].
Qed.

Lemma no_actions_log func w : registered func w = [] → cleanup_log func w = [].
Proof. unfold cleanup_log. by intros ->. Qed.

Lemma no_actions_in_contract func w : registered func w = [] → in_contract func w.
Proof. unfold in_contract. intros ->. constructor. Qed.

End EngineFacts.

(** ** The turns of the event loop *)

Section MachineFacts.

Context {W : Type}.

Implicit Types (p func : prog W) (s : state W) (w : W) (h : heap)
  (m : machine W) (t : task W).

Lemma advance_state p s :
  objects (advance p s).1 = objects s ∧ calls (advance p s).1 = calls s.
Proof.
  revert s. induction p as [c|f k IH|k IH|fn _ k IH|k IH]; intros s;
    cbn [advance defer]; try done.
  - by destruct (IH (set_world (f (world s)) s)) as [-> ->].
  - by destruct (IH VUndefined (set_onCleanup (fn :: onCleanup s) s)) as [-> ->].
Qed.

(** Awaiting a program to its end is the same from where it parks. *)
Lemma advance_awaited p s : exec p s = awaited (advance p s).2 (advance p s).1.
Proof.
  revert s. induction p as [c|f k IH|k IH|fn _ k IH|k IH]; intros s;
    cbn [advance exec defer awaited fst snd]; done.
Qed.

Lemma observe_all_app (a : activity) (tr1 tr2 : list event) :
  observe_all a (tr1 ++ tr2)
  = match observe_all a tr1 with
    | Some a' => observe_all a' tr2
    | None => None
    end.
Proof.
  revert a. induction tr1 as [|e tr1 IH]; intros a; cbn; [done|].
  destruct (observe a e); [apply IH|done].
Qed.

Lemma observe_settled (r : role) (k : prog W) t :
  observe_all (seen r (Parked k)) (settled_events r t) = Some (seen r t).
Proof. destruct r, t; cbn; by rewrite ?Nat.eqb_refl. Qed.

Lemma role_eqb_eq (r r' : role) : role_eqb r r' = true ↔ r = r'.
Proof.
  destruct r, r'; cbn; try done.
  rewrite Nat.eqb_eq. split; congruence.
Qed.

Lemma take_one (r r' : role) t (c : completion) (pend : list (role * task W)) :
  take r [(r', t)] = Some (c, pend) → r = r' ∧ t = Completed c ∧ pend = [].
Proof.
  cbn. destruct (role_eqb r r') eqn:Hr; [|done].
  apply role_eqb_eq in Hr. destruct t; [done|]. by intros [= -> <-].
Qed.

Lemma finish_state (errors : loc) (tried : outcome) s s' (c : completion) :
  finish errors tried s = Some (s', c) →
  calls s' = calls s ∧ onCleanup s' = onCleanup s.
Proof.
  unfold finish. destruct (_ =? _); [by intros [= <- _]|].
  destruct (Error.new_AggregateError _ _ _) as [[h2 err]|]; [|done].
  by intros [= <- _].
Qed.

Lemma in_order_start func w h : in_order (start func w h).
Proof.
  unfold start. destruct (advance func _) as [s t] eqn:Hadv. cbn.
  exists t. split_and!; [done|by destruct t|].
  pose proof (advance_state func (State w h [] [])) as [_ Hc].
  by rewrite Hadv in Hc.
Qed.

(** The engine's turn after a task settled: the next callback starts,
    or the function is over. *)
Lemma in_order_next_callback (index : nat) (errors : loc) (tried : outcome) s
    (tr : list event) m :
  observe_all NotStarted tr = Some (Between index) →
  length (calls s) = index →
  next_callback index errors tried s [] tr = Some m →
  in_order m.
Proof.
  intros Htr Hcalls. unfold next_callback.
  destruct (onCleanup s !! index) as [fn|] eqn:Hfn.
  - destruct (advance fn s) as [s' t] eqn:Hadv. intros [= <-]. cbn.
    exists t. split_and!; [done| |].
    + rewrite observe_all_app, Htr. cbn. rewrite Nat.eqb_refl.
      destruct t; cbn; by rewrite ?Nat.eqb_refl.
    + pose proof (advance_state fn s) as [_ Hc]. rewrite Hadv in Hc.
      cbn in Hc. congruence.
  - destruct (finish errors tried s) as [[s' c]|] eqn:Hfin; [|done].
    intros [= <-]. cbn.
    destruct (finish_state _ _ _ _ _ Hfin) as [-> ->].
    split_and!; [done| | |by eexists].
    + rewrite observe_all_app, Htr. cbn. by rewrite Hcalls.
    + apply lookup_ge_None_1 in Hfn. lia.
Qed.

Lemma in_order_resume_engine m m' :
  in_order m → resume_engine m = Some m' → in_order m'.
Proof.
  unfold in_order at 1, resume_engine.
  destruct (parked_at m) as [|i fn errors tried|c].
  - intros (t & -> & Htr & Hcalls).
    destruct (take Operation _) as [[c pend]|] eqn:Htake; [|done].
    apply take_one in Htake as (_ & -> & ->). cbn [alloc].
    apply in_order_next_callback; [done|].
    cbn. by rewrite Hcalls.
  - intros (t & -> & Htr & Hcalls).
    destruct (take (Action i) _) as [[c pend]|] eqn:Htake; [|done].
    apply take_one in Htake as (_ & -> & ->).
    apply in_order_next_callback; [done|].
    unfold caught. cbn. rewrite length_app. cbn.
    destruct (await c); cbn; lia.
  - done.
Qed.

Lemma in_order_resume_task j m m' :
  in_order m → resume_task j m = Some m' → in_order m'.
Proof.
  unfold in_order at 1, resume_task.
  destruct m as [s pend pt tr]. cbn [parked_at pending trace store].
  destruct pt as [|i fn errors tried|c].
  - intros (t & -> & Htr & Hcalls).
    destruct j as [|j]; [|done]. cbn.
    destruct t as [k|c]; [|done].
    destruct (advance k s) as [s' t'] eqn:Hadv. intros [= <-]. cbn.
    exists t'. split_and!; [done| |].
    + by rewrite observe_all_app, Htr, (observe_settled Operation).
    + pose proof (advance_state k s) as [_ Hc]. rewrite Hadv in Hc.
      cbn in Hc. congruence.
  - intros (t & -> & Htr & Hcalls).
    destruct j as [|j]; [|done]. cbn.
    destruct t as [k|c]; [|done].
    destruct (advance k s) as [s' t'] eqn:Hadv. intros [= <-]. cbn.
    exists t'. split_and!; [done| |].
    + by rewrite observe_all_app, Htr, (observe_settled (Action i)).
    + pose proof (advance_state k s) as [_ Hc]. rewrite Hadv in Hc.
      cbn in Hc. congruence.
  - by intros (-> & _).
Qed.

Lemma in_order_turn m m' : in_order m → turn m m' → in_order m'.
Proof.
  intros Hm [He|[j Ht]];
    eauto using in_order_resume_engine, in_order_resume_task.
Qed.

Lemma in_order_reachable func w h m :
  rtc turn (start func w h) m → in_order m.
Proof.
  intros Hrtc.
  eapply (rtc_ind_r (λ m, in_order m)); [apply in_order_start| |exact Hrtc].
  intros m1 m2 _ Hturn IH. by eapply in_order_turn.
Qed.

(** A schedule of turns is a sequence of turns. *)
Lemma run_turns (schedule : list (option nat)) m m' :
  run schedule m = Some m' → rtc turn m m'.
Proof.
  revert m. induction schedule as [|who rest IH]; intros m; cbn.
  - by intros [= ->].
  - destruct who as [j|].
    + destruct (resume_task j m) as [m1|] eqn:Hm1; [|done].
      intros Hrun. eapply rtc_l; [right; by exists j|by apply IH].
    + destruct (resume_engine m) as [m1|] eqn:Hm1; [|done].
      intros Hrun. eapply rtc_l; [by left|by apply IH].
Qed.

(** An observer who has seen [n] callbacks settle has seen each of the
    first [n] settle. *)
Lemma observe_all_settled (tr : list event) :
  ∀ a a', observe_all a tr = Some a' →
    settled_count a ≤ settled_count a' ∧
    ∀ i, settled_count a ≤ i < settled_count a' →
         ∃ o, Settled (Action i) o ∈ tr.
Proof.
  induction tr as [|e tr IH]; intros a a'; cbn.
  - intros [= ->]. split; [done|]. intros i Hi. lia.
  - destruct (observe a e) as [a1|] eqn:Hobs; [|done]. intros Hrest.
    destruct (IH _ _ Hrest) as [Hle Hin].
    assert (settled_count a ≤ settled_count a1 ∧
            ∀ i, settled_count a ≤ i < settled_count a1 →
                 ∃ o, e = Settled (Action i) o) as [Hle1 Hin1].
    { destruct a, e as [[|j]|[|j] o|c]; cbn in Hobs; try done;
        try (destruct (Nat.eqb_spec j n); [|done]);
        injection Hobs as <-; cbn; (split; [lia|]); intros i Hi;
        try lia.
      exists o. f_equal. f_equal. lia. }
    split; [lia|]. intros i Hi.
    destruct (decide (i < settled_count a1)) as [Hlt|Hge].
    + destruct (Hin1 i) as [o ->]; [lia|]. exists o. apply list_elem_of_here.
    + destruct (Hin i) as [o Ho]; [lia|]. exists o. by apply list_elem_of_further.
Qed.

(** An observer sees a callback start only after the operation, and
    after the callback before it, has settled. *)
Lemma observe_all_started (tr1 tr2 : list event) (i : nat) (a : activity) :
  observe_all NotStarted (tr1 ++ Started (Action i) :: tr2) = Some a →
  observe_all NotStarted tr1 = Some (Between i).
Proof.
  rewrite observe_all_app.
  destruct (observe_all NotStarted tr1) as [a1|]; [|done]. cbn.
  destruct a1 as [| |n|n|n]; cbn; try done.
  destruct (Nat.eqb_spec i n) as [->|]; done.
Qed.

Lemma observe_all_finished (tr1 tr2 : list event) (c : completion) (a : activity) :
  observe_all NotStarted (tr1 ++ Finished c :: tr2) = Some a →
  tr2 = [] ∧ ∃ n, observe_all NotStarted tr1 = Some (Between n).
Proof.
  rewrite observe_all_app.
  destruct (observe_all NotStarted tr1) as [a1|]; [|done]. cbn.
  destruct a1 as [| |n|n|n]; cbn; try done.
  destruct tr2 as [|e tr2]; [eauto|]. by destruct e.
Qed.

Lemma observe_all_operation_settled (tr : list event) (n : nat) :
  observe_all NotStarted tr = Some (Between n) →
  ∃ o, Settled Operation o ∈ tr.
Proof.
  destruct tr as [|[[|j]|r o|c] [|[r'|[|j'] o'|c'] tr]]; cbn; try done.
  intros _. exists o'. apply list_elem_of_further, list_elem_of_here.
Qed.

(** *** The turns and the function awaited whole agree *)

Lemma remainder_start func w h fuel :
  remainder fuel (start func w h) = runWithDefer fuel func w h.
Proof.
  unfold start, runWithDefer. rewrite (advance_awaited func).
  by destruct (advance func _) as [s t].
Qed.

Lemma remainder_next_callback (index : nat) (errors : loc) (tried : outcome) s
    (tr : list event) m fuel :
  next_callback index errors tried s [] tr = Some m →
  remainder fuel m
  = match cleanup_loop (S fuel) index errors s with
    | None => None
    | Some s2 => finish errors tried s2
    end.
Proof.
  unfold next_callback. cbn [cleanup_loop].
  destruct (onCleanup s !! index) as [fn|] eqn:Hfn.
  - rewrite (advance_awaited fn).
    destruct (advance fn s) as [s' t]. intros [= <-].
    unfold remainder. cbn [parked_at pending store fst snd].
    by destruct (awaited t s').
  - destruct (finish errors tried s) as [[s' c]|]; [|done]. by intros [= <-].
Qed.

Lemma remainder_resume_engine m m' fuel :
  in_order m → resume_engine m = Some m' →
  remainder fuel m' = remainder (S fuel) m.
Proof.
  unfold in_order, resume_engine, remainder at 2.
  destruct (parked_at m) as [|i fn errors tried|c]; [| |done].
  - intros (t & -> & _).
    destruct (take Operation _) as [[c pend]|] eqn:Htake; [|done].
    apply take_one in Htake as (_ & -> & ->). cbn [alloc awaited].
    apply remainder_next_callback.
  - intros (t & -> & _).
    destruct (take (Action i) _) as [[c pend]|] eqn:Htake; [|done].
    apply take_one in Htake as (_ & -> & ->). cbn [awaited].
    apply remainder_next_callback.
Qed.

Lemma remainder_resume_task j m m' fuel :
  in_order m → resume_task j m = Some m' →
  remainder fuel m' = remainder fuel m.
Proof.
  unfold in_order, resume_task, remainder at 2.
  destruct m as [s pend pt tr]. cbn [parked_at pending trace store].
  destruct pt as [|i fn errors tried|c].
  - intros (t & -> & _). destruct j as [|j]; [|done]. cbn [lookup list_lookup].
    destruct t as [k|c]; [|done]. cbn [awaited].
    rewrite (advance_awaited k). destruct (advance k s) as [s' t'].
    by intros [= <-].
  - intros (t & -> & _). destruct j as [|j]; [|done]. cbn [lookup list_lookup].
    destruct t as [k|c]; [|done]. cbn [awaited].
    rewrite (advance_awaited k). destruct (advance k s) as [s' t'].
    by intros [= <-].
  - by intros (-> & _).
Qed.

(** However the turns are taken, an invocation that is over has settled
    the way [runWithDefer] says. *)
Lemma turns_agree func w h m (c : completion) :
  rtc turn (start func w h) m →
  parked_at m = Over c →
  ∃ fuel, runWithDefer fuel func w h = Some (store m, c).
Proof.
  intros Hrtc Hover.
  assert (∀ m0, rtc turn m0 m → in_order m0 →
                ∃ fuel, remainder fuel m0 = Some (store m, c)) as Hall.
  { clear Hrtc. intros m0 Hrtc.
    induction Hrtc as [m|m0 m1 m Hturn _ IH]; intros Hm0.
    - exists 0. unfold remainder. by rewrite Hover.
    - destruct (IH Hover) as [fuel Hfuel]; [by eapply in_order_turn|].
      destruct Hturn as [He|[j Ht]].
      + exists (S fuel). by rewrite <- (remainder_resume_engine m0 m1).
      + exists fuel. by rewrite <- (remainder_resume_task j m0 m1). }
  destruct (Hall _ Hrtc (in_order_start func w h)) as [fuel Hfuel].
  exists fuel. by rewrite <- remainder_start.
Qed.

End MachineFacts.

(** ** The specification's statements *)

Section Statements.

Context {W : Type}.

Implicit Types (p func : prog W) (s : state W) (w : W) (h : heap).

(** C1. Whenever at least one clean-up call fails, the promise of
    [runWithDefer] is rejected with a newly constructed [AggregateError]
    whose [errors] are exactly the failures of the clean-up calls, in the
    order of the calls; nothing is assumed of the operation, which may
    have failed as well, and its failure is not among the errors, which
    are those of the call history alone. This holds of every invocation
    that settles; and when registration is in contract the invocation
    does settle, and the calls are the registered callbacks in the reverse
    of the order of registration. *)
Theorem cleanup_failures_reject_with_AggregateError func w h :
  (∀ fuel s out,
     runWithDefer fuel func w h = Some (s, out) →
     failures (calls s) ≠ [] →
     ∃ self,
       out = Rejected (VRef self) ∧
       (self ∉ dom h) ∧
       is_AggregateError (objects s) (VRef self) (failures (calls s))
         cleanup_message) ∧
  (∀ fuel,
     in_contract func w →
     length (registered func w) ≤ fuel →
     failures (cleanup_log func w) ≠ [] →
     ∃ s self,
       runWithDefer fuel func w h = Some (s, Rejected (VRef self)) ∧
       (self ∉ dom h) ∧
       (calls s).*1 = reverse (registered func w) ∧
       calls s = cleanup_log func w ∧
       is_AggregateError (objects s) (VRef self) (failures (calls s))
         cleanup_message).
Proof.
  split.
  - intros fuel s out Hrun Hfail.
    by destruct (runWithDefer_sound _ _ _ _ _ _ Hrun) as (_ & _ & _ & _ & Hsome); auto.
  - intros fuel Hfree Hfuel Hfail.
    destruct (runWithDefer_failed func w h fuel Hfree Hfuel Hfail)
      as (s & self & Hrun & _ & _ & Hcalls & _ & Hnew & Hagg & _).
    exists s, self. rewrite Hcalls. split_and!; try done.
    apply cleanup_log_actions.
Qed.


(** C3. When the operation fails, by throwing or by a rejected promise, and
    every clean-up call succeeds, the promise of [runWithDefer] is rejected
    with the operation's own failure value, and the caller's objects are
    as they were. This holds of every invocation that settles; when
    registration is in contract the invocation does settle; and so it
    does, with no further condition, when nothing was registered. *)
Theorem operation_failure_propagates_unchanged func w h e :
  (effect func w).2 = Thrown e ∨ (effect func w).2 = Rejected e →
  (∀ fuel s out,
     runWithDefer fuel func w h = Some (s, out) →
     Forall (λ call, succeeded call.2) (calls s) →
     out = Rejected e ∧ preserves h (objects s)) ∧
  (∀ fuel,
     in_contract func w →
     length (registered func w) ≤ fuel →
     Forall (λ call, succeeded call.2) (cleanup_log func w) →
     ∃ s, runWithDefer fuel func w h = Some (s, Rejected e) ∧
          calls s = cleanup_log func w ∧
          preserves h (objects s)) ∧
  (∀ fuel,
     registered func w = [] →
     ∃ s, runWithDefer fuel func w h = Some (s, Rejected e) ∧
          calls s = [] ∧
          preserves h (objects s)).
Proof.
  intros Hop.
  assert (settle (await (effect func w).2) = Rejected e) as Hsettle.
  { by destruct Hop as [-> | ->]. }
  split_and!.
  - intros fuel s out Hrun Hall. apply failures_nil in Hall.
    destruct (runWithDefer_sound _ _ _ _ _ _ Hrun) as (Hpres & _ & _ & Hnone & _).
    split; [|done]. by rewrite Hnone.
  - intros fuel Hfree Hfuel Hall. apply failures_nil in Hall.
    destruct (runWithDefer_clean func w h fuel Hfree Hfuel Hall)
      as (s & Hrun & _ & _ & Hcalls & Hpres & _).
    exists s. by rewrite Hrun, Hsettle.
  - intros fuel Hnone.
    destruct (runWithDefer_clean func w h fuel)
      as (s & Hrun & _ & _ & Hcalls & Hpres & _).
    + by apply no_actions_in_contract.
    + rewrite Hnone. cbn. lia.
    + by rewrite no_actions_log.
    + exists s. by rewrite Hrun, Hsettle, Hcalls, no_actions_log.
Qed.

(** C4. When the operation produces a value, by returning it or through a
    fulfilled promise, and no clean-up call fails, the promise of
    [runWithDefer] is fulfilled with that very value, and the objects of
    the caller are as they were: an object result is the same object,
    unchanged. This holds of every invocation that settles; when
    registration is in contract the invocation does settle. *)
Theorem operation_result_is_returned_unchanged func w h v :
  (effect func w).2 = Returned v ∨ (effect func w).2 = Fulfilled v →
  (∀ fuel s out,
     runWithDefer fuel func w h = Some (s, out) →
     failures (calls s) = [] →
     out = Fulfilled v ∧
     ∀ l o, v = VRef l → h !! l = Some o → objects s !! l = Some o) ∧
  (∀ fuel,
     in_contract func w →
     length (registered func w) ≤ fuel →
     failures (cleanup_log func w) = [] →
     ∃ s, runWithDefer fuel func w h = Some (s, Fulfilled v) ∧
          preserves h (objects s) ∧
          ∀ l o, v = VRef l → h !! l = Some o → objects s !! l = Some o).
Proof.
  intros Hop.
  assert (settle (await (effect func w).2) = Fulfilled v) as Hsettle.
  { by destruct Hop as [-> | ->]. }
  assert (Hsame : ∀ h', preserves h h' →
            ∀ l o, v = VRef l → h !! l = Some o → h' !! l = Some o).
  { intros h' Hpres l o _ Hl. rewrite Hpres; [done|].
    apply elem_of_dom. by eexists. }
  split.
  - intros fuel s out Hrun Hnone.
    destruct (runWithDefer_sound _ _ _ _ _ _ Hrun) as (Hpres & _ & _ & Hout & _).
    split; [by rewrite Hout|by apply Hsame].
  - intros fuel Hfree Hfuel Hnone.
    destruct (runWithDefer_clean func w h fuel Hfree Hfuel Hnone)
      as (s & Hrun & _ & _ & _ & Hpres & _).
    exists s. rewrite Hrun, Hsettle. split_and!; [done|done|by apply Hsame].
Qed.

(** C5. A failing clean-up callback does not keep the others from running.
    In every invocation that settles the loop has gone to the end of
    [onCleanup], whatever failed, and [errors] holds the failures of the
    calls in the order met. When registration is in contract the
    invocation does settle, with every callback of [onCleanup] called,
    once and in the array's order, each from the state the one before
    left. *)
Theorem failing_callback_does_not_stop_cleanup func w h :
  (∀ fuel s out,
     runWithDefer fuel func w h = Some (s, out) →
     length (onCleanup s) ≤ length (calls s) ∧
     array_elems (objects s) (VRef (fresh (dom h))) = Some (failures (calls s))) ∧
  (∀ fuel,
     in_contract func w →
     length (registered func w) ≤ fuel →
     ∃ s out,
       runWithDefer fuel func w h = Some (s, out) ∧
       (calls s).*1 = onCleanup s ∧
       length (calls s) = length (registered func w) ∧
       calls s = (run_each (onCleanup s) (effect func w).1).2 ∧
       world s = (run_each (onCleanup s) (effect func w).1).1 ∧
       array_elems (objects s) (VRef (fresh (dom h))) = Some (failures (calls s))).
Proof.
  split.
  - intros fuel s out Hrun.
    by destruct (runWithDefer_sound _ _ _ _ _ _ Hrun) as (_ & ? & ? & _).
  - intros fuel Hfree Hfuel.
    destruct (runWithDefer_settles func w h fuel Hfree Hfuel)
      as (s & out & Hrun & Hworld & Hlist & Hcalls & _ & Herrors).
    exists s, out. rewrite Hcalls, Hlist, Hworld. split_and!; try done.
    + apply cleanup_log_actions.
    + rewrite <- (length_fmap fst), cleanup_log_actions. apply length_reverse.
Qed.

(** C9. The [AggregateError] that rejects the promise after a clean-up
    failure has the message 'One or more exceptions caught while executing
    deferred clean-up functions': in every invocation that settles, and
    when registration is in contract the invocation does settle. *)
Theorem aggregate_error_message_is_fixed func w h :
  (∀ fuel s out,
     runWithDefer fuel func w h = Some (s, out) →
     failures (calls s) ≠ [] →
     ∃ err,
       out = Rejected err ∧
       instanceof (objects s) err ClassAggregateError = true ∧
       get_prop (objects s) err "message"
       = Some (VString
           "One or more exceptions caught while executing deferred clean-up functions")) ∧
  (∀ fuel,
     in_contract func w →
     length (registered func w) ≤ fuel →
     failures (cleanup_log func w) ≠ [] →
     ∃ s err,
       runWithDefer fuel func w h = Some (s, Rejected err) ∧
       instanceof (objects s) err ClassAggregateError = true ∧
       get_prop (objects s) err "message"
       = Some (VString
           "One or more exceptions caught while executing deferred clean-up functions")).
Proof.
  split.
  - intros fuel s out Hrun Hfail.
    destruct (runWithDefer_sound _ _ _ _ _ _ Hrun) as (_ & _ & _ & _ & Hsome).
    destruct (Hsome Hfail) as (self & -> & _ & (Hinst & _ & Hmsg & _)).
    by exists (VRef self).
  - intros fuel Hfree Hfuel Hfail.
    destruct (runWithDefer_failed func w h fuel Hfree Hfuel Hfail)
      as (s & self & Hrun & _ & _ & _ & _ & _ & (Hinst & _ & Hmsg & _) & _).
    by exists s, (VRef self).
Qed.


(** C7. Clean-up is strictly sequential, however the event loop takes its
    turns: what an observer sees is in order; at no time is more than one
    of the operation and the callbacks running; a callback starts only
    after the operation and every callback before it have settled; and
    the promise of [runWithDefer] settles last of all, when nothing is
    running and every callback of [onCleanup] has settled, with the
    result of the function awaited whole. *)
Theorem cleanup_is_strictly_sequential func w h (m : machine W) :
  rtc turn (start func w h) m →
  sequential (trace m) = true ∧
  length (running (pending m)) ≤ 1 ∧
  (∀ tr1 tr2 i,
     trace m = tr1 ++ Started (Action i) :: tr2 →
     (∃ o, Settled Operation o ∈ tr1) ∧
     (∀ j, j < i → ∃ o, Settled (Action j) o ∈ tr1)) ∧
  (∀ tr1 tr2 c,
     trace m = tr1 ++ Finished c :: tr2 →
     tr2 = [] ∧
     parked_at m = Over c ∧
     running (pending m) = [] ∧
     (∀ i, i < length (onCleanup (store m)) → ∃ o, Settled (Action i) o ∈ tr1)) ∧
  (∀ c,
     parked_at m = Over c →
     (∃ tr, trace m = tr ++ [Finished c]) ∧
     (∃ fuel, runWithDefer fuel func w h = Some (store m, c))).
Proof.
  intros Hrtc. pose proof (in_order_reachable _ _ _ _ Hrtc) as Hm.
  assert (∃ a, observe_all NotStarted (trace m) = Some a) as [a Ha].
  { unfold in_order in Hm. destruct (parked_at m).
    - destruct Hm as (t & _ & -> & _). eauto.
    - destruct Hm as (t & _ & -> & _). eauto.
    - destruct Hm as (_ & -> & _). eauto. }
  split_and!.
  - unfold sequential. by rewrite Ha.
  - unfold in_order in Hm. destruct (parked_at m).
    + destruct Hm as (t & -> & _). destruct t; cbn; lia.
    + destruct Hm as (t & -> & _). destruct t; cbn; lia.
    + destruct Hm as (-> & _). cbn. lia.
  - intros tr1 tr2 i Htr. rewrite Htr in Ha.
    apply observe_all_started in Ha. split.
    + by eapply observe_all_operation_settled.
    + intros j Hj. destruct (observe_all_settled _ _ _ Ha) as [_ Hin].
      apply Hin. cbn. lia.
  - intros tr1 tr2 c Htr. pose proof Ha as Ha'. rewrite Htr in Ha'.
    apply observe_all_finished in Ha' as [-> [n Hn]].
    assert (observe_all NotStarted (trace m) = Some (Ended n)) as Hend.
    { rewrite Htr, observe_all_app, Hn. done. }
    unfold in_order in Hm. destruct (parked_at m) as [|i fn errors tried|c'].
    + destruct Hm as (t & _ & Hobs & _). rewrite Hend in Hobs. by destruct t.
    + destruct Hm as (t & _ & Hobs & _). rewrite Hend in Hobs. by destruct t.
    + destruct Hm as (Hpend & Hobs & Hlen & tr & Hlast).
      rewrite Hend in Hobs. injection Hobs as ->.
      rewrite Htr in Hlast. apply app_inj_tail in Hlast as [_ [= ->]].
      split_and!; [done|done|by rewrite Hpend|].
      intros i Hi. destruct (observe_all_settled _ _ _ Hn) as [_ Hin].
      apply Hin. cbn. lia.
  - intros c Hover. split.
    + unfold in_order in Hm. rewrite Hover in Hm. apply Hm.
    + by eapply turns_agree.
Qed.

End Statements.


(** C8. [AggregateError] extends the host's [Error]: whatever is an
    instance of [AggregateError] is an instance of [Error], the constructor
    hands its message to [Error]'s constructor, which installs it, and the
    value that rejects the promise of [runWithDefer] after a clean-up
    failure is an instance of [Error]. *)
Theorem AggregateError_is_an_Error :
  extends ClassAggregateError = Some ClassError ∧
  (∀ (h : heap) x,
     instanceof h x ClassAggregateError = true →
     instanceof h x ClassError = true) ∧
  (∀ (h : heap) src xs message,
     h !! src = Some (ObjArray xs) →
     ∃ h' x,
       Error.new_AggregateError src message h = Some (h', x) ∧
       instanceof h' x ClassError = true ∧
       Error.Error_super ClassAggregateError (default "" message)
       = (ClassAggregateError, {[ "message" := VString (default "" message) ]}) ∧
       get_prop h' x "message" = Some (VString (default "" message))) ∧
  (∀ (W : Type) (func : prog W) (w : W) (h : heap) fuel,
     in_contract func w →
     length (registered func w) ≤ fuel →
     failures (cleanup_log func w) ≠ [] →
     ∃ s err,
       runWithDefer fuel func w h = Some (s, Rejected err) ∧
       instanceof (objects s) err ClassError = true).
Proof.
  assert (Hsub : ∀ (h : heap) x,
            instanceof h x ClassAggregateError = true →
            instanceof h x ClassError = true).
  { intros h [| | | |l]; cbn; try done.
    destruct (h !! l) as [[xs|[] props]|]; cbn; done. }
  repeat split; try done.
  - intros h src xs message Hsrc.
    destruct (new_AggregateError_is h src xs message Hsrc)
      as (h' & self & copy & Hnew & _ & _ & _ & _ & _ & _ & Hinst & _ & Hmsg & _).
    exists h', (VRef self). repeat split; try done. by apply Hsub.
  - intros W func w h fuel Hfree Hfuel Hfail.
    destruct (runWithDefer_failed func w h fuel Hfree Hfuel Hfail)
      as (s & self & Hrun & _ & _ & _ & _ & _ & (Hinst & _) & _).
    exists s, (VRef self). split; [done|]. by apply Hsub.
Qed.

(** ** The test suite, replayed *)

Example test_async_handler_result :
  Tests.settled (runWithDefer 0 (Tests.handler (Fulfilled (VRef Tests.want))) []
                   Tests.want_result)
  = Some (Fulfilled (VRef Tests.want)).
Proof. reflexivity. Qed.

Example test_sync_handler_result :
  Tests.settled (runWithDefer 0 (Tests.handler (Returned (VRef Tests.want))) []
                   Tests.want_result)
  = Some (Fulfilled (VRef Tests.want)).
Proof. reflexivity. Qed.

Example test_async_handler_throws :
  Tests.settled (runWithDefer 0 (Tests.handler (Rejected (VRef Tests.want))) []
                   Tests.want_error)
  = Some (Rejected (VRef Tests.want)).
Proof. reflexivity. Qed.

Example test_sync_handler_throws :
  Tests.settled (runWithDefer 0 (Tests.handler (Thrown (VRef Tests.want))) []
                   Tests.want_error)
  = Some (Rejected (VRef Tests.want)).
Proof. reflexivity. Qed.

Example test_lifo_order :
  Forall (λ ending,
            Tests.got_after (runWithDefer 3 (Tests.lifo ending) [] ∅)
            = Some [3; 2; 1]%Z)
    [Returned VUndefined; Fulfilled VUndefined;
     Thrown (VString "yoink"); Rejected (VString "yoink")].
Proof. repeat constructor. Qed.

Example test_lifo_order_even_if_one_throws :
  Tests.got_after (runWithDefer 4 Tests.lifo_one_throws [] ∅) = Some [3; 2; 1]%Z.
Proof. reflexivity. Qed.

Example test_aggregate_collects_errors :
  Tests.rejected_errors (runWithDefer 3 (Tests.all_throw (Fulfilled VUndefined)) [] ∅)
  = Some [VNumber 3; VNumber 2; VNumber 1].
Proof. vm_compute. reflexivity. Qed.

(** ** Outside the contract: [defer] called during the clean-up *)

(** A callback that registers another one whenever it is called moves one
    place down the array each time, so the iterator meets it again. *)
Lemma cleanup_loop_again fuel :
  ∀ i errors (s : state Tests.got),
    onCleanup s !! i = Some Tests.again →
    cleanup_loop fuel i errors s = None.
Proof.
  induction fuel as [|fuel IH]; intros i errors s Hi; cbn [cleanup_loop];
    rewrite Hi; [done|].
  cbn [Tests.again Tests.got_push exec defer await fst snd].
  apply IH. exact Hi.
Qed.

Lemma defers_again_never_settles fuel :
  runWithDefer fuel Tests.defers_again [] ∅ = None.
Proof.
  unfold runWithDefer.
  cbn [Tests.defers_again exec defer alloc objects set_onCleanup set_objects
       world onCleanup calls].
  by rewrite cleanup_loop_again.
Qed.

(** ** The statements at the inputs of the tests *)

(** C1 where the handler rejects with 'yoink' and the three callbacks
    throw 1, 2 and 3. *)
Lemma cleanup_failures_reject_with_AggregateError_witness :
  let func := Tests.all_throw (Rejected (VString "yoink")) in
  ∃ s self,
    runWithDefer 3 func [] ∅ = Some (s, Rejected (VRef self)) ∧
    (self ∉ dom (∅ : heap)) ∧
    (calls s).*1 = reverse (registered func []) ∧
    calls s = cleanup_log func [] ∧
    is_AggregateError (objects s) (VRef self) (failures (calls s)) cleanup_message.
Proof.
  apply (proj2 (cleanup_failures_reject_with_AggregateError
                  (Tests.all_throw (Rejected (VString "yoink"))) [] ∅) 3).
  - repeat constructor.
  - vm_compute. lia.
  - vm_compute. discriminate.
Defined.


(** C3 at 'will call deferred functions in LIFO order for a sync handler
    that throws'. *)
Lemma operation_failure_propagates_unchanged_witness :
  let func := Tests.lifo (Thrown (VString "yoink")) in
  ∃ s, runWithDefer 3 func [] ∅ = Some (s, Rejected (VString "yoink")) ∧
       calls s = cleanup_log func [] ∧
       preserves ∅ (objects s).
Proof.
  apply (proj1 (proj2 (operation_failure_propagates_unchanged
                         (Tests.lifo (Thrown (VString "yoink"))) [] ∅
                         (VString "yoink") (or_introl eq_refl))) 3).
  - repeat constructor.
  - vm_compute. lia.
  - repeat constructor.
Defined.

(** C4 at 'will return a Promise that resolves to the return type of an
    async handler': the object [want] comes back, as it was. *)
Lemma operation_result_is_returned_unchanged_witness :
  let func := Tests.handler (Fulfilled (VRef Tests.want)) in
  ∃ s, runWithDefer 0 func [] Tests.want_result
       = Some (s, Fulfilled (VRef Tests.want)) ∧
       preserves Tests.want_result (objects s) ∧
       (∀ l o, VRef Tests.want = VRef l →
               Tests.want_result !! l = Some o → objects s !! l = Some o).
Proof.
  apply (proj2 (operation_result_is_returned_unchanged
                  (Tests.handler (Fulfilled (VRef Tests.want))) []
                  Tests.want_result (VRef Tests.want) (or_intror eq_refl)) 0).
  - constructor.
  - vm_compute. lia.
  - reflexivity.
Defined.

(** C5 at 'will call deferred functions in LIFO order even if one
    throws'. *)
Lemma failing_callback_does_not_stop_cleanup_witness :
  let func := Tests.lifo_one_throws in
  ∃ s out,
    runWithDefer 4 func [] ∅ = Some (s, out) ∧
    (calls s).*1 = onCleanup s ∧
    length (calls s) = length (registered func []) ∧
    calls s = (run_each (onCleanup s) (effect func []).1).2 ∧
    world s = (run_each (onCleanup s) (effect func []).1).1 ∧
    array_elems (objects s) (VRef (fresh (dom (∅ : heap))))
    = Some (failures (calls s)).
Proof.
  apply (proj2 (failing_callback_does_not_stop_cleanup Tests.lifo_one_throws [] ∅) 4).
  - repeat constructor.
  - vm_compute. lia.
Defined.


(** C8 at [new AggregateError([1, 2, 3])]. *)
Lemma AggregateError_is_an_Error_witness :
  ∃ h' x,
    Error.new_AggregateError Tests.source None Tests.three_errors = Some (h', x) ∧
    instanceof h' x ClassError = true ∧
    Error.Error_super ClassAggregateError ""
    = (ClassAggregateError, {[ "message" := VString "" ]}) ∧
    get_prop h' x "message" = Some (VString "").
Proof.
  apply (proj1 (proj2 (proj2 AggregateError_is_an_Error))
           Tests.three_errors Tests.source
           [VNumber 1; VNumber 2; VNumber 3] None).
  reflexivity.
Defined.

(** C9 at '... an AggregateError whose errors property collects errors
    thrown by deferred functions'. *)
Lemma aggregate_error_message_is_fixed_witness :
  ∃ s err,
    runWithDefer 3 (Tests.all_throw (Fulfilled VUndefined)) [] ∅
    = Some (s, Rejected err) ∧
    instanceof (objects s) err ClassAggregateError = true ∧
    get_prop (objects s) err "message"
    = Some (VString
        "One or more exceptions caught while executing deferred clean-up functions").
Proof.
  apply (proj2 (aggregate_error_message_is_fixed
                  (Tests.all_throw (Fulfilled VUndefined)) [] ∅) 3).
  - repeat constructor.
  - vm_compute. lia.
  - vm_compute. discriminate.
Defined.


(** C7 where the callbacks are delayed. *)
Lemma cleanup_is_strictly_sequential_witness :
  ∃ m : machine Tests.got,
    run Tests.delayed_turns (start Tests.delayed [] ∅) = Some m ∧
    sequential (trace m) = true ∧
    length (running (pending m)) ≤ 1 ∧
    (∀ tr1 tr2 i,
       trace m = tr1 ++ Started (Action i) :: tr2 →
       (∃ o, Settled Operation o ∈ tr1) ∧
       (∀ j, j < i → ∃ o, Settled (Action j) o ∈ tr1)) ∧
    (∀ tr1 tr2 c,
       trace m = tr1 ++ Finished c :: tr2 →
       tr2 = [] ∧
       parked_at m = Over c ∧
       running (pending m) = [] ∧
       (∀ i, i < length (onCleanup (store m)) → ∃ o, Settled (Action i) o ∈ tr1)) ∧
    (∀ c,
       parked_at m = Over c →
       (∃ tr, trace m = tr ++ [Finished c]) ∧
       (∃ fuel, runWithDefer fuel Tests.delayed [] ∅ = Some (store m, c))).
Proof.
  eexists. split; [vm_compute; reflexivity|].
  apply (cleanup_is_strictly_sequential Tests.delayed [] ∅).
  apply (run_turns Tests.delayed_turns). vm_compute. reflexivity.
Defined.

(** * More of the engine *)

(** ** [defer] called during the clean-up *)

Section Reentrancy.

Context {W : Type}.

Implicit Types (p func fn g : prog W) (s : state W) (w : W) (h : heap).

Lemma caught_state (errors : loc) fn (c : completion) s :
  world (caught errors fn c s) = world s ∧
  onCleanup (caught errors fn c s) = onCleanup s ∧
  calls (caught errors fn c s) = calls s ++ [(fn, await c)].
Proof. unfold caught. by destruct (await c). Qed.

(** A loop that ends has only added to the call history. *)
Lemma cleanup_loop_calls fuel :
  ∀ i errors s s',
    cleanup_loop fuel i errors s = Some s' →
    ∃ log, calls s' = calls s ++ log.
Proof.
  induction fuel as [|fuel IH]; intros i errors s s'; cbn [cleanup_loop];
    destruct (onCleanup s !! i) as [fn|] eqn:Hfn; try done.
  - intros [= <-]. exists []. by rewrite app_nil_r.
  - rewrite exec_spec. intros Hloop.
    apply IH in Hloop as [log Hlog].
    destruct (caught_state errors fn (effect fn (world s)).2
                (State (effect fn (world s)).1 (objects s)
                   (reverse (registered fn (world s)) ++ onCleanup s) (calls s)))
      as (_ & _ & Hcalls).
    rewrite Hcalls in Hlog. cbn in Hlog. rewrite <- app_assoc in Hlog. eauto.
  - intros [= <-]. exists []. by rewrite app_nil_r.
Qed.

(** X1. A clean-up callback that calls [defer] once while it runs pushes
    itself one place down [onCleanup]: the callback it registered lands at
    the front, behind the iterator, and the iterator finds the callback
    itself again at the next index. A loop that ends has therefore called
    it twice in a row. *)
Theorem callback_that_defers_is_called_again fn g s (i : nat) (errors : loc) :
  onCleanup s !! i = Some fn →
  registered fn (world s) = [g] →
  onCleanup (exec fn s).1 !! 0 = Some g ∧
  onCleanup (exec fn s).1 !! (S i) = Some fn ∧
  ∀ fuel s',
    cleanup_loop fuel i errors s = Some s' →
    ∃ o1 o2 rest, calls s' = calls s ++ (fn, o1) :: (fn, o2) :: rest.
Proof.
  intros Hfn Hg. rewrite exec_spec, Hg. cbn [fst onCleanup].
  split_and!; [done|done|].
  intros [|fuel] s'; cbn [cleanup_loop]; rewrite Hfn; [done|].
  rewrite exec_spec, Hg.
  set (s1 := caught errors fn _ _).
  assert (onCleanup s1 = g :: onCleanup s ∧
          calls s1 = calls s ++ [(fn, await (effect fn (world s)).2)])
    as [Hlist Hcalls].
  { unfold s1. by destruct (caught_state errors fn (effect fn (world s)).2
      (State (effect fn (world s)).1 (objects s) (reverse [g] ++ onCleanup s)
         (calls s))) as (_ & -> & ->). }
  destruct fuel as [|fuel]; cbn [cleanup_loop]; rewrite Hlist;
    change ((g :: onCleanup s) !! S i) with (onCleanup s !! i);
    rewrite Hfn; [done|].
  destruct (exec fn s1) as [s2 c2] eqn:Hexec. intros Hloop.
  apply cleanup_loop_calls in Hloop as [log Hlog].
  destruct (caught_state errors fn c2 s2) as (_ & _ & Hcalls2).
  rewrite Hcalls2 in Hlog.
  assert (calls s2 = calls s1) as Hs2.
  { pose proof (exec_spec fn s1) as Hspec. rewrite Hexec in Hspec.
    by injection Hspec as -> _. }
  rewrite Hs2, Hcalls, <- !app_assoc in Hlog. cbn in Hlog. eauto.
Qed.

(** A callback that calls [defer] once whenever it is called is met by
    the iterator for ever. *)
Lemma cleanup_loop_revisits fn :
  (∀ w, length (registered fn w) = 1) →
  ∀ fuel i errors s,
    onCleanup s !! i = Some fn →
    cleanup_loop fuel i errors s = None.
Proof.
  intros Hone. induction fuel as [|fuel IH]; intros i errors s Hfn;
    cbn [cleanup_loop]; rewrite Hfn; [done|].
  rewrite exec_spec. apply IH.
  destruct (caught_state errors fn (effect fn (world s)).2
              (State (effect fn (world s)).1 (objects s)
                 (reverse (registered fn (world s)) ++ onCleanup s) (calls s)))
    as (_ & -> & _).
  cbn [onCleanup]. specialize (Hone (world s)).
  destruct (registered fn (world s)) as [|g [|g' l]]; try done.
Qed.

Lemma cleanup_loop_reaches (pre : list (prog W)) fn :
  (∀ w, length (registered fn w) = 1) →
  ∀ fuel i errors s rest,
    drop i (onCleanup s) = pre ++ fn :: rest →
    Forall defer_free pre →
    cleanup_loop fuel i errors s = None.
Proof.
  intros Hone. induction pre as [|a pre IH]; intros fuel i errors s rest Hdrop Hfree.
  - apply (cleanup_loop_revisits fn Hone).
    rewrite <- (Nat.add_0_r i), <- lookup_drop, Hdrop. done.
  - assert (onCleanup s !! i = Some a) as Ha.
    { rewrite <- (Nat.add_0_r i), <- lookup_drop, Hdrop. done. }
    assert (drop (S i) (onCleanup s) = pre ++ fn :: rest) as Hrest.
    { apply drop_S in Ha. rewrite Hdrop in Ha. cbn in Ha. congruence. }
    apply Forall_cons in Hfree as [Hfa Hfree].
    destruct fuel as [|fuel]; cbn [cleanup_loop]; rewrite Ha; [done|].
    rewrite (exec_defer_free _ _ Hfa).
    apply (IH _ _ _ _ rest); [|done].
    by destruct (caught_state errors a (effect a (world s)).2
                   (set_world (effect a (world s)).1 s)) as (_ & -> & _).
Qed.

(** X2. When the operation registers a callback that calls [defer] once
    every time it is called, and the callbacks registered after it leave
    [defer] alone, the clean-up loop reaches that callback and never gets
    past it: [runWithDefer] does not settle, whatever the fuel. *)
Theorem callback_that_always_defers_never_settles func w h fn
    (before after : list (prog W)) :
  registered func w = before ++ fn :: after →
  Forall defer_free after →
  (∀ w', length (registered fn w') = 1) →
  ∀ fuel, runWithDefer fuel func w h = None.
Proof.
  intros Hreg Hfree Hone fuel. unfold runWithDefer.
  rewrite exec_spec. cbn [world objects onCleanup calls alloc]. rewrite Hreg.
  rewrite (cleanup_loop_reaches (reverse after) fn Hone _ _ _ _ (reverse before));
    [done| |by apply Forall_reverse].
  cbn. by rewrite app_nil_r, reverse_app, reverse_cons, <- app_assoc.
Qed.



End Reentrancy.

(** ** Sync and async code *)

Section SyncAsync.

Context {W : Type}.

Implicit Types (p func fn : prog W) (s : state W) (w : W) (h : heap).

Lemma alike_refl p : alike p p.
Proof. induction p; by constructor. Qed.

Lemma alike_async p : alike p (async p).
Proof.
  induction p as [c|f k IH|k IH|fn IHfn k IH|k IH]; cbn; constructor; try done.
  by destruct c.
Qed.

Lemma states_alike_refl s : states_alike s s.
Proof.
  split_and!; try done.
  - apply Forall_Forall2_diag, Forall_forall. intros. apply alike_refl.
  - apply Forall_Forall2_diag, Forall_forall. intros. split; [apply alike_refl|done].
Qed.

(** Like code, run in like invocations, leaves like invocations and ends
    the same for [await]. *)
Lemma exec_alike p p' :
  alike p p' →
  ∀ s s', states_alike s s' →
    states_alike (exec p s).1 (exec p' s').1 ∧
    await (exec p s).2 = await (exec p' s').2.
Proof.
  induction 1 as [c c' Hc|f k k' _ IH|k k' _ IH|fn fn' k k' Hfn _ _ IH|k k' _ IH];
    intros s s' (Hw & Ho & Hl & Hc'); cbn [exec defer].
  - by split_and!.
  - apply IH. unfold set_world. cbn. rewrite Hw. by split_and!.
  - rewrite Hw. apply IH. by split_and!.
  - apply IH. unfold set_onCleanup. cbn. split_and!; try done.
    by constructor.
  - apply IH. by split_and!.
Qed.

Lemma caught_alike (errors : loc) fn fn' (c c' : completion) s s' :
  alike fn fn' → await c = await c' → states_alike s s' →
  states_alike (caught errors fn c s) (caught errors fn' c' s').
Proof.
  intros Hfn Hc (Hw & Ho & Hl & Hcalls). unfold caught. rewrite <- Hc.
  destruct (await c); cbn; rewrite ?Ho; split_and!; try done;
    (apply Forall2_app; [done|by repeat constructor]).
Qed.

Lemma cleanup_loop_alike fuel :
  ∀ i errors s s',
    states_alike s s' →
    match cleanup_loop fuel i errors s, cleanup_loop fuel i errors s' with
    | Some s2, Some s2' => states_alike s2 s2'
    | None, None => True
    | _, _ => False
    end.
Proof.
  induction fuel as [|fuel IH]; intros i errors s s' Hs; cbn [cleanup_loop];
    pose proof Hs as (_ & _ & Hl & _);
    pose proof (proj1 (Forall2_lookup _ _ _) Hl i) as Hi;
    destruct Hi as [fn fn' Hfn|]; try done.
  destruct (exec_alike fn fn' Hfn s s' Hs) as [Hs1 Hc].
  destruct (exec fn s) as [s1 c], (exec fn' s') as [s1' c'].
  apply IH. by apply caught_alike.
Qed.

Lemma finish_alike (errors : loc) (tried : outcome) s s' :
  states_alike s s' →
  results_alike (finish errors tried s) (finish errors tried s').
Proof.
  intros (Hw & Ho & Hl & Hc). unfold finish. rewrite <- Ho.
  destruct (_ =? _); [by cbn|].
  destruct (Error.new_AggregateError _ _ _) as [[h2 err]|]; [|done].
  cbn. by split_and!.
Qed.

(** X4. [runWithDefer] cannot tell a function that returns or throws from
    one that hands back a fulfilled or rejected promise: for operations
    that differ only in that, and whose callbacks differ only in that,
    the invocations settle alike (same caller state, same heap, same
    outcome of every clean-up call, same result) or both do not settle.
    In particular declaring the operation and every callback [async]
    changes nothing. *)
Theorem sync_and_async_code_settle_alike func func' w h fuel :
  alike func func' →
  results_alike (runWithDefer fuel func w h) (runWithDefer fuel func' w h) ∧
  results_alike (runWithDefer fuel func w h) (runWithDefer fuel (async func) w h).
Proof.
  assert (∀ f f', alike f f' →
            results_alike (runWithDefer fuel f w h) (runWithDefer fuel f' w h))
    as Hall.
  { intros f f' Hf. unfold runWithDefer.
    destruct (exec_alike f f' Hf (State w h [] []) (State w h [] [])
                (states_alike_refl _)) as [Hs1 Hc].
    destruct (exec f _) as [s1 c], (exec f' _) as [s1' c']. cbn [fst snd] in *.
    rewrite <- Hc. destruct Hs1 as (Hw & Ho & Hl & Hcalls). rewrite <- Ho.
    cbn [alloc].
    set (e := fresh (dom (objects s1))).
    assert (states_alike
              (set_objects (<[e := ObjArray []]> (objects s1)) s1)
              (set_objects (<[e := ObjArray []]> (objects s1)) s1')) as Hs
      by (by split_and!).
    pose proof (cleanup_loop_alike fuel 0 e _ _ Hs) as Hloop.
    destruct (cleanup_loop fuel 0 e (set_objects _ s1)) as [s2|],
             (cleanup_loop fuel 0 e (set_objects _ s1')) as [s2'|];
      try done.
    by apply finish_alike. }
  intros Hf. split; [by apply Hall|apply Hall, alike_async].
Qed.

End SyncAsync.

(** ** More of the turns of the event loop *)

Section MachineProgress.

Context {W : Type}.

Implicit Types (p func fn : prog W) (s : state W) (w : W) (h : heap)
  (m : machine W) (t : task W).

Lemma finish_some (errors : loc) (tried : outcome) s (es : list value) :
  objects s !! errors = Some (ObjArray es) →
  ∃ r, finish errors tried s = Some r.
Proof.
  intros Herr. unfold finish. destruct (_ =? _); [eauto|].
  destruct (new_AggregateError_is (objects s) errors es (Some cleanup_message) Herr)
    as (h' & self & copy & -> & _). eauto.
Qed.

Lemma next_callback_some (index : nat) (errors : loc) (tried : outcome) s
    (pend : list (role * task W)) (tr : list event) (es : list value) :
  objects s !! errors = Some (ObjArray es) →
  ∃ m, next_callback index errors tried s pend tr = Some m ∧ errors_ready m.
Proof.
  intros Herr. unfold next_callback.
  destruct (onCleanup s !! index) as [fn|].
  - destruct (advance fn s) as [s' t] eqn:Hadv. eexists. split; [done|].
    pose proof (advance_state fn s) as [Ho _]. rewrite Hadv in Ho.
    unfold errors_ready. cbn in *. rewrite Ho. eauto.
  - destruct (finish_some errors tried s es Herr) as [[s' c] ->].
    eexists. split; [done|]. by unfold errors_ready.
Qed.

Lemma caught_errors (errors : loc) fn (c : completion) s (es : list value) :
  objects s !! errors = Some (ObjArray es) →
  ∃ es', objects (caught errors fn c s) !! errors = Some (ObjArray es').
Proof.
  intros Herr. unfold caught. destruct (await c); cbn; [eauto|].
  unfold array_push. rewrite Herr, lookup_insert_eq. eauto.
Qed.

(** The engine's next turn, when the task it waits for has settled. *)
Lemma resume_engine_some m (r : role) (c : completion) :
  errors_ready m →
  pending m = [(r, Completed c)] →
  (parked_at m = AwaitFunc ∧ r = Operation) ∨
  (∃ i fn errors tried, parked_at m = AwaitCleanup i fn errors tried ∧ r = Action i) →
  ∃ m', resume_engine m = Some m' ∧ errors_ready m'.
Proof.
  unfold errors_ready at 1, resume_engine. intros Hready Hpend Hat.
  destruct Hat as [[Hat ->]|(i & fn & errors & tried & Hat & ->)];
    rewrite Hat in *; rewrite Hpend; cbn.
  - apply (next_callback_some _ _ _ _ _ _ []). cbn. apply lookup_insert_eq.
  - rewrite Nat.eqb_refl. destruct Hready as [es Hes].
    destruct (caught_errors errors fn c (store m) es Hes) as [es' Hes'].
    by apply (next_callback_some _ _ _ _ _ _ es').
Qed.

Lemma errors_ready_turn m m' :
  in_order m → errors_ready m → turn m m' → errors_ready m'.
Proof.
  intros Hm Hready [He|[j Ht]].
  - unfold in_order in Hm. unfold resume_engine in He.
    destruct (parked_at m) as [|i fn errors tried|c] eqn:Hat; [| |done].
    + destruct Hm as (t & Hpend & _). rewrite Hpend in He.
      destruct (take Operation _) as [[c pend]|] eqn:Htake; [|done].
      apply take_one in Htake as (_ & -> & ->).
      destruct (resume_engine_some m Operation c Hready Hpend) as (m2 & Hm2 & ?);
        [by left|].
      unfold resume_engine in Hm2. rewrite Hat, Hpend in Hm2. cbn in Hm2, He.
      congruence.
    + destruct Hm as (t & Hpend & _). rewrite Hpend in He.
      destruct (take (Action i) _) as [[c pend]|] eqn:Htake; [|done].
      apply take_one in Htake as (_ & -> & ->).
      destruct (resume_engine_some m (Action i) c Hready Hpend) as (m2 & Hm2 & ?);
        [right; eauto 10|].
      unfold resume_engine in Hm2. rewrite Hat, Hpend in Hm2. cbn in Hm2.
      rewrite Nat.eqb_refl in Hm2. congruence.
  - unfold resume_task in Ht.
    destruct (pending m !! j) as [[r [k|c]]|]; try done.
    destruct (advance k (store m)) as [s' t'] eqn:Hadv. injection Ht as <-.
    unfold errors_ready in *. cbn.
    destruct (parked_at m); try done.
    pose proof (advance_state k (store m)) as [Ho _]. rewrite Hadv in Ho.
    cbn in Ho. by rewrite Ho.
Qed.

Lemma errors_ready_reachable func w h m :
  rtc turn (start func w h) m → in_order m ∧ errors_ready m.
Proof.
  intros Hrtc.
  eapply (rtc_ind_r (λ m, in_order m ∧ errors_ready m)); [| |exact Hrtc].
  - split; [apply in_order_start|].
    unfold start, errors_ready. by destruct (advance func _).
  - intros m1 m2 _ Hturn [Hin Hready]. split.
    + by eapply in_order_turn.
    + by eapply errors_ready_turn.
Qed.

(** X5. The engine is never stuck: as long as the promise of
    [runWithDefer] has not settled, the event loop has a turn to take,
    the pending task's when it is parked and the engine's when the task
    has settled. Constructing the [AggregateError] in particular cannot
    fail, the engine's [errors] being an array. *)
Theorem engine_is_never_stuck func w h m :
  rtc turn (start func w h) m →
  (∃ c, parked_at m = Over c) ∨ (∃ m', turn m m').
Proof.
  intros Hrtc. destruct (errors_ready_reachable _ _ _ _ Hrtc) as [Hm Hready].
  unfold in_order in Hm.
  destruct (parked_at m) as [|i fn errors tried|c] eqn:Hat; [| |eauto].
  - right. destruct Hm as ([k|c] & Hpend & _).
    + unfold turn, resume_task. setoid_rewrite Hpend.
      destruct (advance k (store m)) as [s' t'] eqn:Hadv.
      eexists. right. exists 0. cbn. by rewrite Hadv.
    + destruct (resume_engine_some m Operation c Hready Hpend) as (m' & Hm' & _);
        [left; by rewrite Hat|].
      exists m'. by left.
  - right. destruct Hm as ([k|c] & Hpend & _).
    + unfold turn, resume_task. setoid_rewrite Hpend.
      destruct (advance k (store m)) as [s' t'] eqn:Hadv.
      eexists. right. exists 0. cbn. by rewrite Hadv.
    + destruct (resume_engine_some m (Action i) c Hready Hpend) as (m' & Hm' & _);
        [right; rewrite Hat; eauto 10|].
      exists m'. by left.
Qed.

(** From a state the invocation can be in there is one turn to take at
    most. *)
Lemma turn_determined m m1 m2 :
  in_order m → turn m m1 → turn m m2 → m1 = m2.
Proof.
  intros Hm H1 H2.
  assert (∀ j m', resume_task j m = Some m' →
            resume_engine m = None ∧ j = 0) as Htask.
  { intros j m' Ht. unfold in_order in Hm. unfold resume_task in Ht.
    unfold resume_engine.
    destruct (parked_at m) as [|i fn errors tried|c].
    - destruct Hm as (t & Hpend & _). rewrite Hpend in *.
      destruct j as [|j]; [|done]. cbn in Ht. destruct t as [k|c]; [|done].
      by cbn.
    - destruct Hm as (t & Hpend & _). rewrite Hpend in *.
      destruct j as [|j]; [|done]. cbn in Ht. destruct t as [k|c]; [|done].
      cbn. by rewrite Nat.eqb_refl.
    - destruct Hm as (Hpend & _). by rewrite Hpend in Ht. }
  destruct H1 as [He1|[j1 Ht1]], H2 as [He2|[j2 Ht2]].
  - congruence.
  - destruct (Htask _ _ Ht2) as [Hnone _]. congruence.
  - destruct (Htask _ _ Ht1) as [Hnone _]. congruence.
  - destruct (Htask _ _ Ht1) as [_ ->], (Htask _ _ Ht2) as [_ ->]. congruence.
Qed.

Lemma over_has_no_turn m m' (c : completion) :
  in_order m → parked_at m = Over c → ¬ turn m m'.
Proof.
  unfold in_order. intros Hm Hover. rewrite Hover in Hm.
  destruct Hm as (Hpend & _). intros [He|[j Ht]].
  - unfold resume_engine in He. by rewrite Hover in He.
  - unfold resume_task in Ht. by rewrite Hpend in Ht.
Qed.

(** X6. The order in which the event loop takes its turns makes no
    difference to an invocation: from a state the invocation can be in
    there is one turn to take at most, and two sequences of turns that
    both see the promise settle end in the same state, with the same
    result. *)
Theorem turns_leave_no_choice func w h m1 m2 (c1 c2 : completion) :
  rtc turn (start func w h) m1 →
  rtc turn (start func w h) m2 →
  parked_at m1 = Over c1 →
  parked_at m2 = Over c2 →
  m1 = m2 ∧ c1 = c2.
Proof.
  intros H1 H2 Hover1 Hover2.
  assert (∀ m0, rtc turn m0 m1 → in_order m0 → rtc turn m0 m2 → m1 = m2) as Hall.
  { clear H1 H2. intros m0 H1.
    induction H1 as [m|m0 a m Hturn _ IH]; intros Hm0 H2.
    - apply rtc_inv in H2 as [->|(b & Hturn' & _)]; [done|].
      by destruct (over_has_no_turn m b c1 Hm0 Hover1).
    - apply rtc_inv in H2 as [->|(b & Hturn' & Hrest)].
      + by destruct (over_has_no_turn m2 a c2 Hm0 Hover2).
      + rewrite <- (turn_determined m0 a b Hm0 Hturn Hturn') in Hrest.
        apply IH; [done|by eapply in_order_turn|done]. }
  assert (m1 = m2) as -> by (apply (Hall _ H1 (in_order_start func w h) H2)).
  split; [done|congruence].
Qed.

End MachineProgress.

Section MachineCompleteness.

Context {W : Type}.

Implicit Types (p func fn : prog W) (s : state W) (w : W) (h : heap)
  (m : machine W) (t : task W).

(** A pending task gets to its end in as many turns as it has
    suspensions left. *)
Lemma task_runs_to_its_end p :
  ∀ s (r : role) (pt : point W) (tr : list event),
  ∃ tr',
    rtc turn (Machine (advance p s).1 [(r, (advance p s).2)] pt tr)
             (Machine (exec p s).1 [(r, Completed (exec p s).2)] pt tr').
Proof.
  induction p as [c|f k IH|k IH|fn _ k IH|k IH]; intros s r pt tr;
    cbn [advance exec defer fst snd].
  - by exists tr.
  - apply IH.
  - apply IH.
  - apply IH.
  - destruct (IH s r pt (tr ++ settled_events r (advance k s).2)) as [tr' Hrtc].
    exists tr'. eapply rtc_l; [|exact Hrtc].
    right. exists 0. unfold resume_task. cbn.
    by destruct (advance k s).
Qed.

(** From the loop head the turns follow the loop to the end of the
    function. *)
Lemma loop_turn_by_turn fuel :
  ∀ (i : nat) (errors : loc) (tried : outcome) s (tr : list event) s2
    (r : state W * completion),
    cleanup_loop fuel i errors s = Some s2 →
    finish errors tried s2 = Some r →
    ∃ m0 m,
      next_callback i errors tried s [] tr = Some m0 ∧
      rtc turn m0 m ∧
      parked_at m = Over r.2 ∧
      store m = r.1.
Proof.
  induction fuel as [|fuel IH]; intros i errors tried s tr s2 r;
    cbn [cleanup_loop]; unfold next_callback;
    destruct (onCleanup s !! i) as [fn|] eqn:Hfn; try done.
  - intros [= <-] ->. destruct r as [s' c]. eauto 10 using rtc_refl.
  - intros Hloop Hfin.
    destruct (exec fn s) as [s1 c1] eqn:Hexec.
    destruct (advance fn s) as [s' t] eqn:Hadv.
    destruct (task_runs_to_its_end fn s (Action i)
                (AwaitCleanup i fn errors tried)
                (tr ++ Started (Action i) :: settled_events (Action i) t))
      as [tr' Hrun].
    rewrite Hadv, Hexec in Hrun. cbn [fst snd] in Hrun.
    destruct (IH (S i) errors tried (caught errors fn c1 s1) tr' s2 r Hloop Hfin)
      as (m0 & m & Hnext & Hrtc & Hover & Hstore).
    eexists _, m. split; [done|]. split_and!; [|done|done].
    etrans; [exact Hrun|].
    eapply rtc_l; [|exact Hrtc].
    left. unfold resume_engine. cbn. by rewrite Nat.eqb_refl.
  - intros [= <-] ->. destruct r as [s' c]. eauto 10 using rtc_refl.
Qed.

(** What settles when every call is awaited to its end settles turn by
    turn. *)
Lemma whole_settles_turn_by_turn func w h fuel s (c : completion) :
  runWithDefer fuel func w h = Some (s, c) →
  ∃ m, rtc turn (start func w h) m ∧ parked_at m = Over c ∧ store m = s.
Proof.
  intros Hrun. unfold runWithDefer in Hrun. unfold start.
  destruct (exec func (State w h [] [])) as [s1 c1] eqn:Hexec.
  destruct (advance func (State w h [] [])) as [s' t] eqn:Hadv.
  destruct (task_runs_to_its_end func (State w h [] []) Operation AwaitFunc
              (Started Operation :: settled_events Operation t)) as [tr' Hdrive].
  rewrite Hadv, Hexec in Hdrive. cbn [fst snd alloc] in Hdrive, Hrun.
  destruct (cleanup_loop _ _ _ _) as [s2|] eqn:Hloop; [|done].
  destruct (loop_turn_by_turn _ _ _ _ _ tr' _ _ Hloop Hrun)
    as (m0 & m & Hnext & Hrtc & Hover & Hstore).
  exists m. split_and!; [|done|done].
  etrans; [exact Hdrive|].
  eapply rtc_l; [|exact Hrtc]. by left.
Qed.

(** X7. Awaiting every call to its end and taking the turns of the event
    loop one by one come to the same: [runWithDefer] settles in some state
    with some result, given fuel enough, exactly when the turns of the
    invocation can reach the end of the function in that state with that
    result. *)
Theorem settles_whole_iff_turn_by_turn func w h s (c : completion) :
  (∃ fuel, runWithDefer fuel func w h = Some (s, c)) ↔
  (∃ m, rtc turn (start func w h) m ∧ parked_at m = Over c ∧ store m = s).
Proof.
  split.
  - intros [fuel Hrun]. by eapply whole_settles_turn_by_turn.
  - intros (m & Hrtc & Hover & <-). by eapply turns_agree.
Qed.

End MachineCompleteness.

(** ** More of src/error.ts *)

(** Writing to an object that is neither the instance nor its [errors]
    array leaves the instance what it is. *)
Lemma is_AggregateError_insert_other (h : heap) (self copy l : loc) (o : object)
    (errs : list value) (msg : string) :
  get_prop h (VRef self) "errors" = Some (VRef copy) →
  l ≠ self → l ≠ copy →
  is_AggregateError h (VRef self) errs msg →
  is_AggregateError (<[l := o]> h) (VRef self) errs msg.
Proof.
  intros Herrs Hs Hc (Hinst & Hname & Hmsg & Hes).
  assert (∀ p, get_prop (<[l := o]> h) (VRef self) p = get_prop h (VRef self) p)
    as Hprop.
  { intros p. unfold get_prop. by rewrite lookup_insert_ne. }
  unfold is_AggregateError. rewrite !Hprop. split_and!; try done.
  - unfold instanceof in *. by rewrite lookup_insert_ne.
  - rewrite Herrs in *. cbn in *. by rewrite lookup_insert_ne.
Qed.

(** X8. Every construction makes an [errors] array of its own: two
    instances built from the same array have different [errors] arrays,
    neither of them the source, so that pushing onto the [errors] of one
    (the property is [readonly], the array is not) lengthens that one and
    changes neither the other instance nor the source. *)
Theorem instances_do_not_share_errors (h h1 h2 : heap) (src : loc)
    (xs : list value) (msg1 msg2 : option string) (a1 a2 : value) :
  h !! src = Some (ObjArray xs) →
  Error.new_AggregateError src msg1 h = Some (h1, a1) →
  Error.new_AggregateError src msg2 h1 = Some (h2, a2) →
  ∃ e1 e2,
    get_prop h2 a1 "errors" = Some (VRef e1) ∧
    get_prop h2 a2 "errors" = Some (VRef e2) ∧
    a1 ≠ a2 ∧ e1 ≠ e2 ∧ e1 ≠ src ∧ e2 ≠ src ∧
    ∀ v,
      array_elems (array_push e1 v h2) (VRef e1) = Some (xs ++ [v]) ∧
      is_AggregateError (array_push e1 v h2) a2 xs (default "" msg2) ∧
      array_elems (array_push e1 v h2) (VRef src) = Some xs.
Proof.
  intros Hsrc Hnew1 Hnew2.
  destruct (new_AggregateError_is h src xs msg1 Hsrc)
    as (h1' & self1 & copy1 & Hnew1' & Hself1 & Hcopy1 & Hne1 & Hpres1 & Herrs1
        & Harr1 & Hagg1).
  rewrite Hnew1 in Hnew1'. injection Hnew1' as <- ->.
  assert (Hsrc_dom : src ∈ dom h) by (apply elem_of_dom; by eexists).
  assert (Hsrc1 : h1 !! src = Some (ObjArray xs)) by (by rewrite Hpres1).
  destruct (new_AggregateError_is h1 src xs msg2 Hsrc1)
    as (h2' & self2 & copy2 & Hnew2' & Hself2 & Hcopy2 & Hne2 & Hpres2 & Herrs2
        & Harr2 & Hagg2).
  rewrite Hnew2 in Hnew2'. injection Hnew2' as <- ->.
  assert (Hself1_dom : self1 ∈ dom h1).
  { destruct Hagg1 as (Hinst & _). unfold instanceof in Hinst.
    apply elem_of_dom. by destruct (h1 !! self1). }
  assert (Hcopy1_dom : copy1 ∈ dom h1) by (apply elem_of_dom; by eexists).
  assert (Hsrc1_dom : src ∈ dom h1) by (apply elem_of_dom; by eexists).
  assert (Hcopy1_h2 : h2 !! copy1 = Some (ObjArray xs)) by (by rewrite Hpres2).
  exists copy1, copy2. split_and!.
  - unfold get_prop in *. by rewrite Hpres2.
  - done.
  - intros [= ->]. done.
  - by intros ->.
  - by intros ->.
  - by intros ->.
  - intros v. unfold array_push. rewrite Hcopy1_h2. split_and!.
    + unfold array_elems. by rewrite lookup_insert_eq.
    + apply (is_AggregateError_insert_other _ _ copy2); try done.
      * by intros ->.
      * by intros ->.
    + unfold array_elems. rewrite lookup_insert_ne by (by intros ->).
      by rewrite Hpres2, Hsrc1.
Qed.

(** ** Invocations in contract, turn by turn *)

Section MachineTermination.

Context {W : Type}.

Implicit Types (func : prog W) (w : W) (h : heap) (m : machine W).

(** Where the end can be reached, every sequence of turns is on its way
    to it. *)
Lemma turns_lead_to_the_end m (c : completion) :
  parked_at m = Over c →
  ∀ m0, rtc turn m0 m → in_order m0 →
  ∀ m', rtc turn m0 m' → rtc turn m' m.
Proof.
  intros Hover m0 Hend. induction Hend as [m|m0 a m Hturn Hrest IH];
    intros Hm0 m' Hm'.
  - apply rtc_inv in Hm' as [<-|(b & Hturn' & _)]; [done|].
    by destruct (over_has_no_turn m b c Hm0 Hover).
  - apply rtc_inv in Hm' as [<-|(b & Hturn' & Hrest')].
    + by eapply rtc_l.
    + rewrite <- (turn_determined m0 a b Hm0 Hturn Hturn') in Hrest'.
      apply IH; [done|by eapply in_order_turn|done].
Qed.

(** X9. An invocation in contract settles whatever the event loop does:
    the turns can reach the end of the function, in the state and with the
    result of [runWithDefer], and from every state the invocation can be
    in the turns lead on to that end. *)
Theorem invocation_in_contract_settles func w h :
  in_contract func w →
  ∃ m s c,
    runWithDefer (length (registered func w)) func w h = Some (s, c) ∧
    rtc turn (start func w h) m ∧
    parked_at m = Over c ∧
    store m = s ∧
    ∀ m', rtc turn (start func w h) m' → rtc turn m' m.
Proof.
  intros Hfree.
  destruct (runWithDefer_settles func w h _ Hfree (le_n _))
    as (s & c & Hrun & _).
  destruct (whole_settles_turn_by_turn func w h _ s c Hrun)
    as (m & Hrtc & Hover & Hs).
  exists m, s, c. split_and!; try done.
  by apply (turns_lead_to_the_end m c Hover _ Hrtc (in_order_start func w h)).
Qed.

End MachineTermination.

(** ** These statements at inputs of their own *)

(** X1 at a callback that calls [defer] the first time only. *)
Lemma callback_that_defers_is_called_again_witness :
  let s : state Tests.got := State [] ∅ [Tests.defers_once] [] in
  onCleanup (exec Tests.defers_once s).1 !! 0 = Some (Tests.got_push 9) ∧
  onCleanup (exec Tests.defers_once s).1 !! 1 = Some Tests.defers_once ∧
  ∀ fuel s',
    cleanup_loop fuel 0 0 s = Some s' →
    ∃ o1 o2 rest,
      calls s' = calls s ++ (Tests.defers_once, o1) :: (Tests.defers_once, o2) :: rest.
Proof.
  apply (callback_that_defers_is_called_again Tests.defers_once (Tests.got_push 9)
           (State [] ∅ [Tests.defers_once] []) 0 0); reflexivity.
Defined.

(** X2 where the callback that defers stands between two others. *)
Lemma callback_that_always_defers_never_settles_witness :
  runWithDefer 7 Tests.again_in_the_middle [] ∅ = None.
Proof.
  apply (callback_that_always_defers_never_settles Tests.again_in_the_middle [] ∅
           Tests.again [Tests.got_push 4] [Tests.got_push 5]).
  - reflexivity.
  - repeat constructor.
  - intros w'. reflexivity.
Defined.


(** X4 at the sync and the async handler that throw 'yoink'. *)
Lemma sync_and_async_code_settle_alike_witness :
  let func := Tests.lifo (Thrown (VString "yoink")) in
  let func' := Tests.lifo (Rejected (VString "yoink")) in
  results_alike (runWithDefer 3 func [] ∅) (runWithDefer 3 func' [] ∅) ∧
  results_alike (runWithDefer 3 func [] ∅) (runWithDefer 3 (async func) [] ∅).
Proof.
  apply (sync_and_async_code_settle_alike
           (Tests.lifo (Thrown (VString "yoink")))
           (Tests.lifo (Rejected (VString "yoink"))) [] ∅ 3).
  repeat first [apply alike_refl | constructor | intro].
Defined.

(** X5 three turns into the invocation with the delayed callbacks. *)
Lemma engine_is_never_stuck_witness :
  ∃ m : machine Tests.got,
    run (firstn 3 Tests.delayed_turns) (start Tests.delayed [] ∅) = Some m ∧
    ((∃ c, parked_at m = Over c) ∨ (∃ m', turn m m')).
Proof.
  eexists. split; [vm_compute; reflexivity|].
  apply (engine_is_never_stuck Tests.delayed [] ∅).
  apply (run_turns (firstn 3 Tests.delayed_turns)). vm_compute. reflexivity.
Defined.

(** X6 at the end of the invocation with the delayed callbacks. *)
Lemma turns_leave_no_choice_witness :
  ∃ (m : machine Tests.got) c,
    run Tests.delayed_turns (start Tests.delayed [] ∅) = Some m ∧
    parked_at m = Over c ∧
    m = m ∧ c = c.
Proof.
  eexists _, _. split; [vm_compute; reflexivity|]. split; [reflexivity|].
  eapply (turns_leave_no_choice Tests.delayed [] ∅).
  - apply (run_turns Tests.delayed_turns). vm_compute. reflexivity.
  - apply (run_turns Tests.delayed_turns). vm_compute. reflexivity.
  - reflexivity.
  - reflexivity.
Defined.

(** X7 at the invocation with the delayed callbacks. *)
Lemma settles_whole_iff_turn_by_turn_witness :
  ∃ (s : state Tests.got) c,
    runWithDefer 3 Tests.delayed [] ∅ = Some (s, c) ∧
    ∃ m, rtc turn (start Tests.delayed [] ∅) m ∧ parked_at m = Over c ∧ store m = s.
Proof.
  eexists _, _. split; [vm_compute; reflexivity|].
  apply (proj1 (settles_whole_iff_turn_by_turn Tests.delayed [] ∅ _ _)).
  exists 3. vm_compute. reflexivity.
Defined.

(** X8 at two instances built from [[1, 2, 3]]. *)
Lemma instances_do_not_share_errors_witness :
  ∃ (h1 h2 : heap) a1 a2,
    Error.new_AggregateError Tests.source None Tests.three_errors = Some (h1, a1) ∧
    Error.new_AggregateError Tests.source None h1 = Some (h2, a2) ∧
    ∃ e1 e2,
      get_prop h2 a1 "errors" = Some (VRef e1) ∧
      get_prop h2 a2 "errors" = Some (VRef e2) ∧
      a1 ≠ a2 ∧ e1 ≠ e2 ∧ e1 ≠ Tests.source ∧ e2 ≠ Tests.source ∧
      ∀ v,
        array_elems (array_push e1 v h2) (VRef e1)
        = Some ([VNumber 1; VNumber 2; VNumber 3] ++ [v]) ∧
        is_AggregateError (array_push e1 v h2) a2
          [VNumber 1; VNumber 2; VNumber 3] "" ∧
        array_elems (array_push e1 v h2) (VRef Tests.source)
        = Some [VNumber 1; VNumber 2; VNumber 3].
Proof.
  eexists _, _, _, _. split; [vm_compute; reflexivity|].
  split; [vm_compute; reflexivity|].
  eapply (instances_do_not_share_errors Tests.three_errors _ _ Tests.source
            [VNumber 1; VNumber 2; VNumber 3] None None).
  - reflexivity.
  - vm_compute. reflexivity.
  - vm_compute. reflexivity.
Defined.

(** X9 at the invocation with the delayed callbacks. *)
Lemma invocation_in_contract_settles_witness :
  let func := Tests.delayed in
  ∃ (m : machine Tests.got) s c,
    runWithDefer (length (registered func [])) func [] ∅ = Some (s, c) ∧
    rtc turn (start func [] ∅) m ∧
    parked_at m = Over c ∧
    store m = s ∧
    ∀ m', rtc turn (start func [] ∅) m' → rtc turn m' m.
Proof.
  apply (invocation_in_contract_settles Tests.delayed [] ∅).
  repeat constructor.
Defined.
